(** * SPDF-V2: electron configurations and the orbital field model

    A shallow embedding of [electron_config.js] (the Aufbau-with-exceptions
    configuration builder) and of the angular part of [orbitals.js] (the
    amplitude function and the nodal-surface table), with the properties the
    specification states about them.

    Numbers.  JavaScript numbers are modelled by [Z] in the configuration
    builder, whose claims range over integer atomic numbers, and by [R] in the
    orbital field model, i.e. the trigonometric code is read with exact real
    arithmetic. *)

From Stdlib Require Import ZArith Reals Lra Lia DecimalString.
From Stdlib Require DecimalPos DecimalZ.
From stdpp Require Import gmap strings list sorting.

(** ** Part I: [electron_config.js] *)

Module ElectronConfig.

Open Scope Z_scope.

(** An element of [ORBITAL_ORDER]: [{ n, l, capacity }]. *)
Record Orbital := mkOrbital {
  orbital_n : Z;
  orbital_l : string;
  orbital_capacity : Z
}.

(** An element of a configuration: [{ n, l, capacity, electrons }]. *)
Record Entry := mkEntry {
  entry_n : Z;
  entry_l : string;
  entry_capacity : Z;
  entry_electrons : Z
}.

(** One side of an exception rule: [{ n, l, count }]. *)
Record Transfer := mkTransfer {
  transfer_n : Z;
  transfer_l : string;
  transfer_count : Z
}.

(** An exception rule [{ from, to }]; the code guards both fields with
    [if (from)] and [if (to)], hence the options. *)
Record Op := mkOp {
  op_from : option Transfer;
  op_to : option Transfer
}.

#[global] Instance Entry_eq_dec : EqDecision Entry.
Proof. solve_decision. Defined.

#[global] Instance Orbital_eq_dec : EqDecision Orbital.
Proof. solve_decision. Defined.

Definition ORBITAL_ORDER : list Orbital :=
  [ mkOrbital 1 "s" 2;
    mkOrbital 2 "s" 2;
    mkOrbital 2 "p" 6;
    mkOrbital 3 "s" 2;
    mkOrbital 3 "p" 6;
    mkOrbital 4 "s" 2;
    mkOrbital 3 "d" 10;
    mkOrbital 4 "p" 6;
    mkOrbital 5 "s" 2;
    mkOrbital 4 "d" 10;
    mkOrbital 5 "p" 6;
    mkOrbital 6 "s" 2;
    mkOrbital 4 "f" 14;
    mkOrbital 5 "d" 10;
    mkOrbital 6 "p" 6;
    mkOrbital 7 "s" 2;
    mkOrbital 5 "f" 14;
    mkOrbital 6 "d" 10;
    mkOrbital 7 "p" 6 ].

(** The text a template literal produces for an integer: its decimal
    numeral, with a leading minus sign when negative.  This is the text the
    code produces for the safe integers, those of magnitude below 2^53, which
    cover every shell number and atomic number of the tables; a larger number
    is printed by the code from its shortest round-trip digits, in exponent
    form from 10^21 on, and is outside this model. *)
Definition numberToString (z : Z) : string :=
  NilZero.string_of_int (Z.to_int z).

(** [Number.isSafeInteger] on an integer: a magnitude below 2^53. *)
Definition isSafeInteger (z : Z) : Prop := (- 2 ^ 53 < z < 2 ^ 53)%Z.

(** The template literal [`${n}${l}`]. *)
Definition subshellKey (n : Z) (l : string) : string :=
  numberToString n +:+ l.

(** [new Map(pairs)]: pairs are inserted from left to right, a later pair
    replacing an earlier one with the same key. *)
Definition newMap {V} (pairs : list (string * V)) : gmap string V :=
  foldl (fun m p => <[ p.1 := p.2 ]> m) ∅ pairs.

Definition ORDER_INDEX : gmap string nat :=
  newMap (imap (fun idx o => (subshellKey (orbital_n o) (orbital_l o), idx))
               ORBITAL_ORDER).

(** The rule that moves [count] electrons from subshell [fn fl] to [tn tl]. *)
Definition move (fn : Z) (fl : string) (tn : Z) (tl : string) (count : Z) : list Op :=
  [ mkOp (Some (mkTransfer fn fl count)) (Some (mkTransfer tn tl count)) ].

(** [EXCEPTION_ADJUSTMENTS]; the object is indexed by the atomic number, and
    an integer index denotes the property named by its decimal numeral, so
    the keys are kept as integers. *)
Definition EXCEPTION_ADJUSTMENTS : gmap Z (list Op) :=
  list_to_map
  [ (24, move 4 "s" 3 "d" 1);
    (29, move 4 "s" 3 "d" 1);
    (41, move 5 "s" 4 "d" 1);
    (42, move 5 "s" 4 "d" 1);
    (44, move 5 "s" 4 "d" 1);
    (45, move 5 "s" 4 "d" 1);
    (46, move 5 "s" 4 "d" 2);
    (47, move 5 "s" 4 "d" 1);
    (57, move 4 "f" 5 "d" 1);
    (58, move 4 "f" 5 "d" 1);
    (64, move 4 "f" 5 "d" 1);
    (78, move 6 "s" 5 "d" 1);
    (79, move 6 "s" 5 "d" 1);
    (89, move 5 "f" 6 "d" 1);
    (90, move 5 "f" 6 "d" 2);
    (91, move 5 "f" 6 "d" 1);
    (92, move 5 "f" 6 "d" 1);
    (93, move 5 "f" 6 "d" 1);
    (96, move 5 "f" 6 "d" 1);
    (103, move 6 "d" 7 "p" 1) ].

(** The predicate [(c) => c.n === n && c.l === l]. *)
Definition isSubshell (n : Z) (l : string) (c : Entry) : Prop :=
  entry_n c = n /\ entry_l c = l.

#[global] Instance isSubshell_dec n l c : Decision (isSubshell n l c).
Proof. unfold isSubshell. apply _. Defined.

Definition isOrbital (n : Z) (l : string) (o : Orbital) : Prop :=
  orbital_n o = n /\ orbital_l o = l.

#[global] Instance isOrbital_dec n l o : Decision (isOrbital n l o).
Proof. unfold isOrbital. apply _. Defined.

(** The filling-order index of a record, [ORDER_INDEX.get(`${c.n}${c.l}`)]. *)
Definition orderIndexOf (c : Entry) : option nat :=
  ORDER_INDEX !! subshellKey (entry_n c) (entry_l c).

(** The scan of [ensureEntry]: the first position whose record has a defined
    index greater than [orderIndex], or [config.length] when there is none. *)
Fixpoint insertionPoint (orderIndex : nat) (config : list Entry) : nat :=
  match config with
  | [] => 0%nat
  | c :: rest =>
      match orderIndexOf c with
      | Some idx =>
          if bool_decide (orderIndex < idx)%nat then 0%nat
          else S (insertionPoint orderIndex rest)
      | None => S (insertionPoint orderIndex rest)
      end
  end.

(** [config.splice(insertAt, 0, entry)]. *)
Definition spliceIn (insertAt : nat) (entry : Entry) (config : list Entry) : list Entry :=
  take insertAt config ++ entry :: drop insertAt config.

(** [ensureEntry(config, n, l)].  The configuration is an array of shared
    objects mutated in place, so the function returns the array after the
    call together with the position of the record it returns a reference to
    ([None] for [null]). *)
Definition ensureEntry (config : list Entry) (n : Z) (l : string)
  : list Entry * option nat :=
  match list_find (isSubshell n l) config with
  | Some (i, _) => (config, Some i)
  | None =>
      match list_find (isOrbital n l) ORBITAL_ORDER with
      | None => (config, None)
      | Some (_, template) =>
          let entry := mkEntry n l (orbital_capacity template) 0 in
          match ORDER_INDEX !! subshellKey n l with
          | None => (config ++ [entry], Some (length config))
          | Some orderIndex =>
              let insertAt := insertionPoint orderIndex config in
              (spliceIn insertAt entry config, Some insertAt)
          end
      end
  end.

Definition setElectrons (e : Z) (c : Entry) : Entry :=
  mkEntry (entry_n c) (entry_l c) (entry_capacity c) e.

(** The [from] half of a rule. *)
Definition applyFrom (config : list Entry) (from : option Transfer) : list Entry :=
  match from with
  | None => config
  | Some f =>
      match list_find (isSubshell (transfer_n f) (transfer_l f)) config with
      | Some (i, _) =>
          alter (fun target =>
                   setElectrons (Z.max 0 (entry_electrons target - transfer_count f)) target)
                i config
      | None => config
      end
  end.

(** The [to] half of a rule. *)
Definition applyTo (config : list Entry) (to : option Transfer) : list Entry :=
  match to with
  | None => config
  | Some t =>
      match ensureEntry config (transfer_n t) (transfer_l t) with
      | (config', Some i) =>
          alter (fun dest =>
                   setElectrons (Z.min (entry_capacity dest)
                                       (entry_electrons dest + transfer_count t)) dest)
                i config'
      | (config', None) => config'
      end
  end.

(** The body of [ops.forEach]. *)
Definition applyOp (config : list Entry) (op : Op) : list Entry :=
  applyTo (applyFrom config (op_from op)) (op_to op).

(** The pruning loop, [for (let i = config.length - 1; i >= 0; i -= 1)]:
    [pruneFrom k] runs the iterations [i = k - 1, ..., 0]. *)
Fixpoint pruneFrom (k : nat) (config : list Entry) : list Entry :=
  match k with
  | O => config
  | S i =>
      pruneFrom i
        match config !! i with
        | Some c => if bool_decide (entry_electrons c <= 0) then delete i config else config
        | None => config
        end
  end.

Definition prune (config : list Entry) : list Entry :=
  pruneFrom (length config) config.

(** [applyExceptions(config, atomicNumber)], returning the array it leaves. *)
Definition applyExceptions (config : list Entry) (atomicNumber : Z) : list Entry :=
  match EXCEPTION_ADJUSTMENTS !! atomicNumber with
  | None => config
  | Some ops => prune (foldl applyOp config ops)
  end.

(** The record [{ ...orbital, electrons }]. *)
Definition occupy (orbital : Orbital) (electrons : Z) : Entry :=
  mkEntry (orbital_n orbital) (orbital_l orbital) (orbital_capacity orbital) electrons.

(** The filling loop of [buildElectronConfiguration] over the slots that are
    left, with the electrons that remain and the array built so far. *)
Fixpoint fill (order : list Orbital) (remaining : Z) (config : list Entry) : list Entry :=
  match order with
  | [] => config
  | orbital :: rest =>
      if bool_decide (remaining <= 0) then config
      else
        let electrons := Z.min (orbital_capacity orbital) remaining in
        fill rest (remaining - electrons) (config ++ [occupy orbital electrons])
  end.

Definition buildElectronConfiguration (atomicNumber : Z) : list Entry :=
  applyExceptions (fill ORBITAL_ORDER atomicNumber []) atomicNumber.

(** [Array.prototype.join]. *)
Fixpoint join (sep : string) (parts : list string) : string :=
  match parts with
  | [] => ""
  | [p] => p
  | p :: rest => p +:+ sep +:+ join sep rest
  end.

Definition formatElectronConfiguration (config : list Entry) : string :=
  join " " (map (fun entry =>
                   numberToString (entry_n entry) +:+ entry_l entry
                   +:+ numberToString (entry_electrons entry)) config).

Definition computeValenceElectrons (config : list Entry) : Z :=
  let maxShell :=
    foldl (fun maxShell entry =>
             if bool_decide (maxShell < entry_n entry) then entry_n entry else maxShell)
          0 config in
  foldl (fun sum entry => sum + entry_electrons entry) 0
        (filter (fun entry => entry_n entry = maxShell) config).

(** The number of electrons a configuration holds. *)
Definition totalElectrons (config : list Entry) : Z :=
  foldr (fun entry sum => entry_electrons entry + sum) 0 config.

(** [Map.prototype.set] on a map whose iteration order matters: the value of
    a key already present is replaced where it stands, a new key is added at
    the end. *)
Definition mapSet {V} (m : list (string * V)) (key : string) (value : V)
  : list (string * V) :=
  match list_find (fun p => p.1 = key) m with
  | Some (i, _) => <[ i := (key, value) ]> m
  | None => m ++ [(key, value)]
  end.

(** [summarizeShellOccupation(config)]: [Array.from(summary.values())] lists
    the values in the order in which their keys were first set. *)
Definition summarizeShellOccupation (config : list Entry) : list Entry :=
  (foldl (fun summary c =>
            mapSet summary (subshellKey (entry_n c) (entry_l c))
                   (mkEntry (entry_n c) (entry_l c) (entry_capacity c) (entry_electrons c)))
         [] config).*2.

End ElectronConfig.

(** ** Part II: the angular field model of [orbitals.js] *)

Module Orbitals.

Open Scope R_scope.

(** [THREE.Vector3]. *)
Record Vector3 := mkVector3 { vx : R; vy : R; vz : R }.

(** [Vector3.length()], read with exact real arithmetic.  In the code the
    sum of squares underflows to 0 for components below about 1e-162 and
    overflows above about 1e154, so the exact reading stands for the code
    only between these magnitudes, and at the zero vector. *)
Definition vlength (v : Vector3) : R :=
  sqrt (vx v * vx v + vy v * vy v + vz v * vz v).

(** [Vector3.normalize()], that is [divideScalar(length() || 1)]. *)
Definition normalize (v : Vector3) : Vector3 :=
  let len := vlength v in
  let d := if Req_dec_T len 0 then 1 else len in
  mkVector3 (vx v / d) (vy v / d) (vz v / d).

(** [Math.atan2(y, x)] on real arguments. *)
Definition Math_atan2 (y x : R) : R :=
  if Rlt_dec 0 x then atan (y / x)
  else if Rlt_dec x 0 then
    if Rle_dec 0 y then atan (y / x) + PI else atan (y / x) - PI
  else if Rlt_dec 0 y then PI / 2
  else if Rlt_dec y 0 then - (PI / 2)
  else 0.

(** [THREE.MathUtils.clamp(value, min, max)]. *)
Definition clamp (value lo hi : R) : R := Rmax lo (Rmin hi value).

(** The shape configuration [{ family, variant, baseRadius, radialScale,
    power }] assembled by [buildOrbitalMesh]. *)
Record OrbitalConfig := mkOrbitalConfig {
  family : string;
  variant : string;
  baseRadius : R;
  radialScale : R;
  power : R
}.

(** One cone mesh of a double cone helper: an open [ConeGeometry] of the
    given base radius and height, whose axis is the y axis, placed at
    [position.y] and turned by [rotation.x] about the x axis. *)
Record ConeMesh := mkConeMesh {
  cone_radius : R;
  cone_height : R;
  cone_position_y : R;
  cone_rotation_x : R
}.

(** The helpers a nodal group holds.  A plane helper is a square of side
    [size] turned so that its normal is the normalised vector [n]; a double
    cone helper is the group of its two cone meshes.  Materials and render
    flags are left out. *)
Inductive NodeHelper :=
| PlaneNode (n : Vector3) (size : R)
| DoubleConeNode (coneA coneB : ConeMesh).

Definition createPlaneNode (normal : Vector3) (size : R) : NodeHelper :=
  PlaneNode (normalize normal) size.

(** [createDoubleConeNode(cosTheta, size, material)]: the angle [theta] only
    serves to compute the base radius; [coneA] is lowered and [coneB] raised
    by a quarter of the height, and [coneB] is turned upside down. *)
Definition createDoubleConeNode (cosTheta size : R) : NodeHelper :=
  let theta := acos (clamp cosTheta (-1) 1) in
  let height := size * 2.4 in
  let radius := tan theta * (height / 2) in
  DoubleConeNode (mkConeMesh radius height (- height * 0.25) 0)
                 (mkConeMesh radius height (height * 0.25) PI).

Definition addPlanes (size : R) (normals : list Vector3) : list NodeHelper :=
  map (fun n => createPlaneNode n size) normals.

Definition addCones (size : R) (cosValues : list R) : list NodeHelper :=
  map (fun c => createDoubleConeNode c size) cosValues.

(** The children added by the [switch] of [buildNodalGroup]. *)
Definition nodalChildren (cfg : OrbitalConfig) (size : R) : list NodeHelper :=
  if String.eqb (family cfg) "s" then []
  else if String.eqb (family cfg) "p" then
    if String.eqb (variant cfg) "px" then addPlanes size [mkVector3 1 0 0]
    else if String.eqb (variant cfg) "py" then addPlanes size [mkVector3 0 1 0]
    else addPlanes size [mkVector3 0 0 1]
  else if String.eqb (family cfg) "d" then
    if String.eqb (variant cfg) "dz2" then addCones size [1 / sqrt 3]
    else if String.eqb (variant cfg) "dxz" then
      addPlanes size [mkVector3 1 0 0; mkVector3 0 0 1]
    else if String.eqb (variant cfg) "dyz" then
      addPlanes size [mkVector3 0 1 0; mkVector3 0 0 1]
    else if String.eqb (variant cfg) "dxy" then
      addPlanes size [mkVector3 1 0 0; mkVector3 0 1 0]
    else
      addPlanes size [normalize (mkVector3 1 1 0); normalize (mkVector3 1 (-1) 0)]
  else if String.eqb (family cfg) "f" then
    if String.eqb (variant cfg) "fz3" then
      addPlanes size [mkVector3 0 1 0] ++ addCones size [sqrt (3 / 5)]
    else if String.eqb (variant cfg) "fxz2" then
      addPlanes size [mkVector3 1 0 0] ++ addCones size [1 / sqrt 5]
    else if String.eqb (variant cfg) "fyz2" then
      addPlanes size [mkVector3 0 1 0] ++ addCones size [1 / sqrt 5]
    else if String.eqb (variant cfg) "fzx2y2" then
      addPlanes size [mkVector3 0 0 1;
                      normalize (mkVector3 1 1 0);
                      normalize (mkVector3 1 (-1) 0)]
    else if String.eqb (variant cfg) "fxyz" then
      addPlanes size [mkVector3 1 0 0; mkVector3 0 1 0; mkVector3 0 0 1]
    else if String.eqb (variant cfg) "fcos3" then
      addPlanes size [mkVector3 0 0 1;
                      mkVector3 (sin (PI / 3)) 0 (cos (PI / 3));
                      mkVector3 (sin ((2 * PI) / 3)) 0 (cos ((2 * PI) / 3))]
    else if String.eqb (variant cfg) "fsin3" then
      addPlanes size [mkVector3 1 0 0;
                      mkVector3 (sin (PI / 3)) 0 (cos (PI / 3));
                      mkVector3 (sin ((2 * PI) / 3)) 0 (cos ((2 * PI) / 3))]
    else addPlanes size [mkVector3 0 1 0]
  else [].

(** [buildNodalGroup(cfg, size)]: the group, or [null] when it is empty. *)
Definition buildNodalGroup (cfg : OrbitalConfig) (size : R) : option (list NodeHelper) :=
  match nodalChildren cfg size with
  | [] => None
  | children => Some children
  end.

(** [evaluateOrbitalAmplitude(family, variant, dir)]; [Math.pow(sinT, 3.0)]
    is the cube. *)
Definition evaluateOrbitalAmplitude (family variant : string) (dir : Vector3) : R :=
  let x := vx dir in
  let y := vy dir in
  let z := vz dir in
  let r := 1 in
  let cosT := y / r in
  let sinT := sqrt (Rmax 0 (1 - cosT * cosT)) in
  let phi := Math_atan2 z x in
  if String.eqb family "s" then 1
  else if String.eqb family "p" then
    if String.eqb variant "px" then sinT * cos phi
    else if String.eqb variant "py" then sinT * sin phi
    else cosT
  else if String.eqb family "d" then
    if String.eqb variant "dz2" then 0.5 * (3 * cosT * cosT - 1)
    else if String.eqb variant "dxz" then sinT * cosT * cos phi
    else if String.eqb variant "dyz" then sinT * cosT * sin phi
    else if String.eqb variant "dxy" then sinT * sinT * sin (2 * phi)
    else sinT * sinT * cos (2 * phi)
  else if String.eqb family "f" then
    if String.eqb variant "fz3" then 0.5 * cosT * (5 * cosT * cosT - 3)
    else if String.eqb variant "fxz2" then 0.5 * sinT * cos phi * (5 * cosT * cosT - 1)
    else if String.eqb variant "fyz2" then 0.5 * sinT * sin phi * (5 * cosT * cosT - 1)
    else if String.eqb variant "fzx2y2" then sinT * sinT * cosT * cos (2 * phi)
    else if String.eqb variant "fxyz" then sinT * sinT * cosT * sin (2 * phi)
    else if String.eqb variant "fcos3" then sinT ^ 3 * cos (3 * phi)
    else if String.eqb variant "fsin3" then sinT ^ 3 * sin (3 * phi)
    else 0.5 * cosT * (5 * cosT * cosT - 3)
  else 1.

(** [FAMILY_VARIANTS] of [atom_spdf.js]: the closed set of variants. *)
Definition FAMILY_VARIANTS : list (string * list string) :=
  [ ("s", ["s"]);
    ("p", ["px"; "py"; "pz"]);
    ("d", ["dz2"; "dxz"; "dyz"; "dxy"; "dx2y2"]);
    ("f", ["fz3"; "fxz2"; "fyz2"; "fzx2y2"; "fxyz"; "fcos3"; "fsin3"]) ]%string.

(** The (family, variant) pairs of the closed set. *)
Definition enumerated : list (string * string) :=
  flat_map (fun fv => map (fun v => (fv.1, v)) fv.2) FAMILY_VARIANTS.

(** The normals of the plane helpers of a nodal group. *)
Definition planeNormals (group : option (list NodeHelper)) : list Vector3 :=
  match group with
  | None => []
  | Some children =>
      flat_map (fun h => match h with
                         | PlaneNode n _ => [n]
                         | DoubleConeNode _ _ => []
                         end) children
  end.

Definition isUnit (dir : Vector3) : Prop :=
  vx dir * vx dir + vy dir * vy dir + vz dir * vz dir = 1.

(** [Math.pow(base, exponent)] on a base that is not negative, as it is at
    every call of this file (the base is always a [Math.abs]).  [None] stands
    for a result that is not a finite number: zero to a negative power.
    Negative bases are outside the model and given [None] as well. *)
Definition Math_pow (base exponent : R) : option R :=
  if Rlt_dec 0 base then Some (Rpower base exponent)
  else if Req_dec_T base 0 then
    if Rlt_dec 0 exponent then Some 0
    else if Req_dec_T exponent 0 then Some 1
    else None
  else None.

(** [Math.sign(amp) || 1]: the sign of a zero is 0, which [||] replaces. *)
Definition signOrOne (amp : R) : R := if Rlt_dec amp 0 then -1 else 1.

(** A shape configuration as [evaluateOrbitalRadius] and [evaluateOrbitalSDF]
    read it: [radialScale] and [power] may be missing ([??]). *)
Record OrbitalShape := mkOrbitalShape {
  shape_family : string;
  shape_variant : string;
  shape_baseRadius : R;
  shape_radialScale : option R;
  shape_power : option R
}.

(** [evaluateOrbitalRadius(config, dir)]. *)
Definition evaluateOrbitalRadius (config : OrbitalShape) (dir : Vector3) : option R :=
  let amp := Rabs (evaluateOrbitalAmplitude (shape_family config) (shape_variant config) dir) in
  let power := default 1 (shape_power config) in
  let radialScale := default 0 (shape_radialScale config) in
  match Math_pow amp power with
  | Some p => Some (shape_baseRadius config * (1 + radialScale * p))
  | None => None
  end.

(** The object [{ distance, phase, amplitude }] that [evaluateOrbitalSDF]
    fills and returns. *)
Record FieldSample := mkFieldSample {
  sample_distance : R;
  sample_phase : R;
  sample_amplitude : R
}.

(** [evaluateOrbitalSDF(config, position, target)]. *)
Definition evaluateOrbitalSDF (config : OrbitalShape) (position : Vector3)
  : option FieldSample :=
  let len := vlength position in
  if Req_dec_T len 0 then
    Some (mkFieldSample (- shape_baseRadius config) 1 1)
  else
    let dir := normalize position in
    let amp := evaluateOrbitalAmplitude (shape_family config) (shape_variant config) dir in
    match Math_pow (Rabs amp) (default 1 (shape_power config)) with
    | Some p =>
        let radius :=
          shape_baseRadius config * (1 + default 0 (shape_radialScale config) * p) in
        Some (mkFieldSample (len - radius) (signOrOne amp) amp)
    | None => None
    end.

(** [THREE.MathUtils.lerp(x, y, t)]. *)
Definition lerp (x y t : R) : R := (1 - t) * x + t * y.

(** [Vector3.multiplyScalar]. *)
Definition multiplyScalar (v : Vector3) (s : R) : Vector3 :=
  mkVector3 (vx v * s) (vy v * s) (vz v * s).

(** What the vertex loop of [buildOrbitalMesh] stores for one vertex: its new
    position and its [amp] and [phase] attributes. *)
Record VertexSample := mkVertexSample {
  vertex_position : Vector3;
  vertex_amp : R;
  vertex_phase : R
}.

(** The body of the vertex loop of [buildOrbitalMesh] for the vertex at
    [tmp]; the attribute arrays are read with exact values. *)
Definition displaceVertex (family variant : string)
    (baseRadius radialScale power : R) (tmp : Vector3) : option VertexSample :=
  let dir := normalize tmp in
  let ampRaw := evaluateOrbitalAmplitude family variant dir in
  let sign := signOrOne ampRaw in
  match Math_pow (Rabs ampRaw) power with
  | None => None
  | Some ampMag =>
      let nodeFloor := if String.eqb family "s" then 1 else 0.22 in
      match (if String.eqb family "s" then Some 1
             else match Math_pow (Rabs ampRaw) 0.35 with
                  | Some t => Some (lerp nodeFloor 1 t)
                  | None => None
                  end) with
      | None => None
      | Some baseBlend =>
          let r := baseRadius * (baseBlend + radialScale * ampMag) in
          Some (mkVertexSample (multiplyScalar dir r) ampMag sign)
      end
  end.

End Orbitals.

(** ** Part III: the layout rules of [atom_spdf.js] *)

Module AtomSpdf.

Import ElectronConfig Orbitals.
Open Scope R_scope.

(** A table indexed by family; a missing key reads as [undefined].  Only the
    keys the table itself holds are modelled: the tables are plain objects,
    and for the name of a property they inherit ([constructor], [toString]
    and the like) the code reads that property instead.  The model stands for
    the code on the families s, p, d and f, and on any other string that is
    not such a name. *)
Definition familyLookup {V} (table : list (string * V)) (family : string) : option V :=
  snd <$> (snd <$> list_find (fun p => p.1 = family) table).

(** [SHELL_BASE_RADIUS[n]] for an integer [n]. *)
Definition SHELL_BASE_RADIUS (n : Z) : option R :=
  if (n =? 1)%Z then Some 0.55
  else if (n =? 2)%Z then Some 0.95
  else if (n =? 3)%Z then Some 1.45
  else if (n =? 4)%Z then Some 1.95
  else if (n =? 5)%Z then Some 2.45
  else if (n =? 6)%Z then Some 2.95
  else if (n =? 7)%Z then Some 3.45
  else None.

Definition FAMILY_RADIUS_OFFSET : list (string * R) :=
  [ ("s", 0); ("p", 0.18); ("d", 0.38); ("f", 0.58) ]%string.

Definition FAMILY_BASE_SCALE : list (string * R) :=
  [ ("s", 1.0); ("p", 0.9); ("d", 0.88); ("f", 0.94) ]%string.

Definition FAMILY_RADIAL_SCALE : list (string * R) :=
  [ ("s", 1.05); ("p", 1.65); ("d", 1.45); ("f", 1.18) ]%string.

Definition FAMILY_POWER : list (string * R) :=
  [ ("s", 1.35); ("p", 2.05); ("d", 1.9); ("f", 1.95) ]%string.

(** [getVariants(family)]: [FAMILY_VARIANTS[family] || []]. *)
Definition getVariants (family : string) : list string :=
  default [] (familyLookup FAMILY_VARIANTS family).

(** [getBaseRadius(n, family)]. *)
Definition getBaseRadius (n : Z) (family : string) : R :=
  let base := default (0.55 + 0.5 * Rmax 0 (IZR n - 1)) (SHELL_BASE_RADIUS n) in
  let offset := default 0 (familyLookup FAMILY_RADIUS_OFFSET family) in
  let scale := default 1.0 (familyLookup FAMILY_BASE_SCALE family) in
  (base + offset) * scale.

(** [computeOpacity(baseOpacity, occupancy)]. *)
Definition computeOpacity (baseOpacity occupancy : R) : R :=
  let clamped := Rmax 0 (Rmin 1 occupancy) in
  baseOpacity * (0.55 + 0.45 * clamped).

(** [Math.cbrt]. *)
Definition Math_cbrt (x : R) : R :=
  if Rlt_dec 0 x then Rpower x (1 / 3)
  else if Rlt_dec x 0 then - Rpower (- x) (1 / 3)
  else 0.

(** [computeNucleusRadius(atomicNumber, override)]; an [override] that is not
    a number is [None]. *)
Definition computeNucleusRadius (atomicNumber : Z) (override : option R) : R :=
  match override with
  | Some radius => radius
  | None =>
      if (atomicNumber =? 0)%Z then 0.28
      else clamp (0.18 + 0.05 * Math_cbrt (IZR atomicNumber)) 0.18 0.52
  end.

(** What [createSubshellGroup] computes for a record: the name and the
    occupancy stored in [userData], the opacity of the meshes and the shape
    configuration of each orbital mesh, one per variant. *)
Record SubshellGroup := mkSubshellGroup {
  group_name : string;
  group_occupancy : R;
  group_opacity : R;
  group_orbitals : list OrbitalConfig
}.

(** [createSubshellGroup(entry, coats, ...)], given the opacity
    [getCoat(coats, l).opacity] of the coat of the family; [None] for
    [null]. *)
Definition createSubshellGroup (entry : Entry) (coatOpacity : R) : option SubshellGroup :=
  let n := entry_n entry in
  let l := entry_l entry in
  let variants := getVariants l in
  match variants with
  | [] => None
  | _ =>
      let baseRadius := getBaseRadius n l in
      let radialScale := default 1.1 (familyLookup FAMILY_RADIAL_SCALE l) in
      let power := default 1.6 (familyLookup FAMILY_POWER l) in
      let capacity := if (entry_capacity entry =? 0)%Z then 1%Z else entry_capacity entry in
      let occupancy := IZR (entry_electrons entry) / IZR capacity in
      let opacity := computeOpacity coatOpacity occupancy in
      Some (mkSubshellGroup (subshellKey n l) occupancy opacity
              (map (fun variant => mkOrbitalConfig l variant baseRadius radialScale power)
                   variants))
  end.

End AtomSpdf.

(** ** Properties of the configuration builder *)

Module ElectronConfigProofs.

Import ElectronConfig.
Open Scope Z_scope.

(** *** Bounded enumeration of atomic numbers *)

(** A decidable property that holds of [1], ..., [118] by evaluation holds
    of every integer in that range. *)
Lemma periodic_table_range (P : Z -> Prop) :
  Forall P (Z.of_nat <$> seq 1 118) ->
  forall a, 1 <= a <= 118 -> P a.
Proof.
  intros HP a Ha.
  rewrite Forall_forall in HP. apply HP.
  apply list_elem_of_fmap. exists (Z.to_nat a). split; [lia|].
  apply elem_of_seq. lia.
Qed.

(** *** The exception table *)

Lemma exception_keys a ops :
  EXCEPTION_ADJUSTMENTS !! a = Some ops -> 24 <= a <= 103.
Proof.
  intros H. apply elem_of_list_to_map_2 in H.
  repeat (apply elem_of_cons in H as [H|H]; [inversion H; lia|]).
  by apply elem_of_nil in H.
Qed.

Lemma no_exception_outside a :
  a < 24 \/ 103 < a -> EXCEPTION_ADJUSTMENTS !! a = None.
Proof.
  intros Ha. destruct (EXCEPTION_ADJUSTMENTS !! a) as [ops|] eqn:E; [|done].
  apply exception_keys in E. lia.
Qed.

(** *** The filling loop *)

Definition full (o : Orbital) : Entry := occupy o (orbital_capacity o).

Definition capacityOf (order : list Orbital) : Z :=
  foldr (fun o sum => orbital_capacity o + sum) 0 order.

Lemma fill_nothing order remaining config :
  remaining <= 0 -> fill order remaining config = config.
Proof.
  intros H. destruct order as [|o rest]; [done|].
  simpl. by rewrite bool_decide_eq_true_2.
Qed.

Lemma fill_all order : forall remaining config,
  Forall (fun o => 0 < orbital_capacity o) order ->
  capacityOf order <= remaining ->
  fill order remaining config = config ++ (full <$> order).
Proof.
  induction order as [|o rest IH]; intros remaining config Hpos Hsum.
  - simpl. by rewrite app_nil_r.
  - apply Forall_cons in Hpos as [Ho Hrest]. simpl in Hsum.
    assert (0 <= capacityOf rest).
    { clear -Hrest. induction Hrest; simpl; lia. }
    simpl. rewrite bool_decide_eq_false_2 by lia.
    rewrite Z.min_l by lia.
    rewrite IH by (done || lia).
    by rewrite <- app_assoc.
Qed.

Lemma capacities_positive : Forall (fun o => 0 < orbital_capacity o) ORBITAL_ORDER.
Proof. compute_done. Qed.

Lemma table_capacity : capacityOf ORBITAL_ORDER = 118.
Proof. reflexivity. Qed.

Lemma build_table_exhausted a :
  118 <= a -> EXCEPTION_ADJUSTMENTS !! a = None ->
  buildElectronConfiguration a = full <$> ORBITAL_ORDER.
Proof.
  intros Ha Hex. unfold buildElectronConfiguration, applyExceptions.
  rewrite Hex. rewrite fill_all.
  - done.
  - apply capacities_positive.
  - rewrite table_capacity. lia.
Qed.

(** *** The pruning loop is a filter *)

Lemma pruneFrom_filter k : forall config,
  (k <= length config)%nat ->
  pruneFrom k config =
    filter (fun c => 0 < entry_electrons c) (take k config) ++ drop k config.
Proof.
  induction k as [|i IH]; intros config Hk.
  - by rewrite take_0, drop_0.
  - destruct (lookup_lt_is_Some_2 config i) as [c Hc]; [lia|].
    simpl. rewrite Hc.
    rewrite (take_S_r _ _ _ Hc), filter_app, <- app_assoc.
    assert (Hlen : length (take i config) = i) by (rewrite length_take; lia).
    case_bool_decide as Hle.
    + rewrite IH by (rewrite length_delete by eauto; lia).
      rewrite delete_take_drop.
      rewrite take_app_length' by done.
      rewrite drop_app_length' by done.
      rewrite filter_cons_False by (simpl; lia). done.
    + rewrite IH by lia.
      rewrite (drop_S _ _ _ Hc).
      rewrite filter_cons_True by (simpl; lia). done.
Qed.

Lemma prune_filter config :
  prune config = filter (fun c => 0 < entry_electrons c) config.
Proof.
  unfold prune. rewrite pruneFrom_filter by done.
  by rewrite firstn_all, drop_all, app_nil_r.
Qed.

(** *** Keys of the filling-order map *)

(** The numeral of an integer parses back to that integer. *)
Lemma numberToString_parse n s :
  numberToString n = s ->
  Z.of_int <$> NilZero.int_of_string s = Some n.
Proof.
  intros <-. unfold numberToString.
  rewrite NilZero.isi.
  - simpl. f_equal. apply DecimalZ.of_to.
  - destruct n; simpl; try discriminate.
    intros [= H]. by apply DecimalPos.Unsigned.to_uint_nonnil in H.
  - destruct n; simpl; try discriminate.
    intros [= H]. by apply DecimalPos.Unsigned.to_uint_nonnil in H.
Qed.

(** A key made of one digit and one letter comes from that digit and that
    letter only. *)
Lemma subshellKey_two_chars n l d a :
  subshellKey n l = String d (String a "") ->
  Z.of_int <$> NilZero.int_of_string (String d (String a "")) = None ->
  numberToString n = String d "" /\ l = String a "".
Proof.
  unfold subshellKey. intros Hkey Hnum.
  destruct (numberToString n) as [|c1 [|c2 [|c3 s3]]] eqn:E;
    cbv [String.append] in Hkey.
  - apply numberToString_parse in E. discriminate E.
  - injection Hkey as Hd Hl. by subst.
  - injection Hkey as Hd Ha Hl. subst.
    apply numberToString_parse in E. congruence.
  - fold String.append in Hkey. injection Hkey as _ _ Hnil.
    destruct s3; discriminate Hnil.
Qed.

(** The pairs [ORDER_INDEX] is built from. *)
Definition orderPairs : list (string * nat) :=
  imap (fun idx o => (subshellKey (orbital_n o) (orbital_l o), idx)) ORBITAL_ORDER.

Lemma ORDER_INDEX_pairs key k :
  ORDER_INDEX !! key = Some k -> (key, k) ∈ orderPairs.
Proof.
  intros H. apply elem_of_map_to_list in H.
  assert (Hall : Forall (fun p => p ∈ orderPairs) (map_to_list ORDER_INDEX))
    by compute_done.
  rewrite Forall_forall in Hall. by apply Hall.
Qed.

Lemma ORDER_INDEX_table k o :
  ORBITAL_ORDER !! k = Some o ->
  ORDER_INDEX !! subshellKey (orbital_n o) (orbital_l o) = Some k.
Proof.
  intros H.
  assert (Hall : Forall (fun p => ORDER_INDEX !! p.1 = Some p.2) orderPairs)
    by compute_done.
  rewrite Forall_forall in Hall.
  apply (Hall (subshellKey (orbital_n o) (orbital_l o), k)).
  by apply (elem_of_lookup_imap_2
              (fun idx o => (subshellKey (orbital_n o) (orbital_l o), idx))).
Qed.

(** A key with a filling-order index names the slot at that index. *)
Lemma ORDER_INDEX_slot n l k :
  ORDER_INDEX !! subshellKey n l = Some k ->
  exists o, ORBITAL_ORDER !! k = Some o /\ orbital_n o = n /\ orbital_l o = l.
Proof.
  intros H. apply ORDER_INDEX_pairs in H.
  set (pairs := orderPairs) in H. vm_compute in pairs. subst pairs.
  repeat (apply elem_of_cons in H as [H|H];
    [ injection H as Hkey ->;
      apply subshellKey_two_chars in Hkey as [Hn ->]; [|reflexivity];
      apply numberToString_parse in Hn; injection Hn as <-;
      eexists; split; [reflexivity|done] |]).
  by apply elem_of_nil in H.
Qed.

(** *** Electron totals *)

(** The array after the rules of [atomicNumber] have moved their electrons
    and before the pruning loop runs. *)
Definition adjusted (atomicNumber : Z) : list Entry :=
  foldl applyOp (fill ORBITAL_ORDER atomicNumber [])
        (default [] (EXCEPTION_ADJUSTMENTS !! atomicNumber)).

(** C1.  For every atomic number from 1 to 118 the electrons of the built
    configuration add up to the atomic number.  The same total is already
    held by the plain filling and by the array after the exception rules have
    moved their electrons, so neither the floor at 0 nor the cap at the
    capacity ever changes the total, whether or not the atomic number has an
    exception rule. *)
Theorem total_electrons_is_atomic_number (atomicNumber : Z) :
  1 <= atomicNumber <= 118 ->
  totalElectrons (buildElectronConfiguration atomicNumber) = atomicNumber /\
  totalElectrons (adjusted atomicNumber) = atomicNumber /\
  totalElectrons (fill ORBITAL_ORDER atomicNumber []) = atomicNumber.
Proof.
  revert atomicNumber.
  apply (periodic_table_range (fun a =>
    totalElectrons (buildElectronConfiguration a) = a /\
    totalElectrons (adjusted a) = a /\
    totalElectrons (fill ORBITAL_ORDER a []) = a)).
  compute_done.
Qed.

Lemma total_electrons_is_atomic_number_witness :
  1 <= 46 <= 118 /\
  totalElectrons (buildElectronConfiguration 46) = 46.
Proof.
  split; [lia|].
  apply (total_electrons_is_atomic_number 46). lia.
Defined.

(** *** Worked elements *)

(** C4.  Chromium: the plain filling ends in 4s2 3d4, and the built
    configuration has exactly one 4s record, with one electron, and exactly
    one 3d record, with five. *)
Theorem chromium_configuration :
  filter (isSubshell 4 "s") (buildElectronConfiguration 24) = [mkEntry 4 "s" 2 1] /\
  filter (isSubshell 3 "d") (buildElectronConfiguration 24) = [mkEntry 3 "d" 10 5] /\
  filter (isSubshell 4 "s") (fill ORBITAL_ORDER 24 []) = [mkEntry 4 "s" 2 2] /\
  filter (isSubshell 3 "d") (fill ORBITAL_ORDER 24 []) = [mkEntry 3 "d" 10 4].
Proof. by vm_compute. Qed.

(** C5.  Calcium: the built configuration is 1s2 2s2 2p6 3s2 3p6 4s2 in this
    order, it is formatted as that text, and it has two valence electrons. *)
Theorem calcium_configuration :
  buildElectronConfiguration 20 =
    [ mkEntry 1 "s" 2 2; mkEntry 2 "s" 2 2; mkEntry 2 "p" 6 6;
      mkEntry 3 "s" 2 2; mkEntry 3 "p" 6 6; mkEntry 4 "s" 2 2 ] /\
  formatElectronConfiguration (buildElectronConfiguration 20) =
    "1s2 2s2 2p6 3s2 3p6 4s2"%string /\
  computeValenceElectrons (buildElectronConfiguration 20) = 2.
Proof. by vm_compute. Qed.

(** *** Occupancy bounds *)

(** C6.  Every record of the configuration built for a positive atomic
    number holds at least one electron and at most its capacity. *)
Theorem occupancy_within_capacity (atomicNumber : Z) :
  0 < atomicNumber ->
  Forall (fun c => 0 < entry_electrons c <= entry_capacity c)
         (buildElectronConfiguration atomicNumber).
Proof.
  intros Hpos. destruct (decide (atomicNumber <= 118)) as [Hle|Hgt].
  - revert atomicNumber Hpos Hle.
    assert (H : forall a, 1 <= a <= 118 ->
              Forall (fun c => 0 < entry_electrons c <= entry_capacity c)
                     (buildElectronConfiguration a)).
    { apply (periodic_table_range (fun a =>
        Forall (fun c => 0 < entry_electrons c <= entry_capacity c)
               (buildElectronConfiguration a))).
      compute_done. }
    intros a ? ?. apply H. lia.
  - rewrite build_table_exhausted.
    + compute_done.
    + lia.
    + apply no_exception_outside. lia.
Qed.

Lemma occupancy_within_capacity_witness :
  0 < 103 /\
  Forall (fun c => 0 < entry_electrons c <= entry_capacity c)
         (buildElectronConfiguration 103).
Proof.
  split; [lia|].
  apply (occupancy_within_capacity 103). lia.
Defined.

(** *** Filling order *)

(** A configuration is sorted by filling order when every record has a
    filling-order index and the indices increase strictly along the array. *)
Definition sortedByFillingOrder (config : list Entry) : Prop :=
  exists ks, mapM orderIndexOf config = Some ks /\ StronglySorted lt ks.

#[global] Instance sortedByFillingOrder_dec config :
  Decision (sortedByFillingOrder config).
Proof.
  unfold sortedByFillingOrder.
  destruct (mapM orderIndexOf config) as [ks|].
  - destruct (decide (StronglySorted lt ks)) as [Hs|Hs].
    + left. by exists ks.
    + right. intros (ks' & [= <-] & Hs'). by apply Hs.
  - right. intros (ks' & [=] & _).
Defined.

Definition hasIndex (c : Entry) (k : nat) : Prop := orderIndexOf c = Some k.

(** On a sorted array that does not hold index [k], the scan of
    [ensureEntry] stops between the indices below [k] and those above. *)
Lemma insertionPoint_split k config ks :
  Forall2 hasIndex config ks -> StronglySorted lt ks -> k ∉ ks ->
  (insertionPoint k config <= length config)%nat /\
  Forall (fun k' => (k' < k)%nat) (take (insertionPoint k config) ks) /\
  Forall (lt k) (drop (insertionPoint k config) ks).
Proof.
  intros Hidx. induction Hidx as [|c k' config ks Hc Hrest IH]; intros Hs Hk.
  - simpl. split_and!; [lia|constructor..].
  - apply StronglySorted_cons in Hs as [Hall Hs].
    apply not_elem_of_cons in Hk as [Hne Hk].
    cbn [insertionPoint length]. unfold hasIndex in Hc. rewrite Hc.
    case_bool_decide as Hlt.
    + simpl. split_and!; [lia|constructor|].
      constructor; [done|].
      eapply Forall_impl; [exact Hall|]. simpl. intros; lia.
    + destruct (IH Hs Hk) as (Hlen & Hbelow & Habove).
      simpl. split_and!; [lia| |done].
      constructor; [lia|done].
Qed.

(** A subshell that the array does not hold has an index that the array does
    not hold. *)
Lemma absent_subshell_index config ks n l k :
  Forall2 hasIndex config ks ->
  list_find (isSubshell n l) config = None ->
  ORDER_INDEX !! subshellKey n l = Some k ->
  k ∉ ks.
Proof.
  intros Hidx Hnone Hk Hin.
  apply list_elem_of_lookup in Hin as [i Hi].
  destruct (Forall2_lookup_r _ _ _ _ _ Hidx Hi) as (c & Hci & Hc).
  apply ORDER_INDEX_slot in Hc as (o & Ho & Hon & Hol).
  apply ORDER_INDEX_slot in Hk as (o' & Ho' & Hon' & Hol').
  assert (o' = o) as -> by congruence.
  apply list_find_None in Hnone. rewrite Forall_forall in Hnone.
  apply (Hnone c); [by eapply list_elem_of_lookup_2|].
  split; congruence.
Qed.

Lemma template_index n l k template :
  list_find (isOrbital n l) ORBITAL_ORDER = Some (k, template) ->
  ORDER_INDEX !! subshellKey n l = Some k.
Proof.
  intros H. apply list_find_Some in H as (Hlook & [<- <-] & _).
  by apply ORDER_INDEX_table.
Qed.

Lemma build_sorted a :
  0 < a -> sortedByFillingOrder (buildElectronConfiguration a).
Proof.
  intros Hpos. destruct (decide (a <= 118)) as [Hle|Hgt].
  - revert a Hpos Hle.
    assert (H : forall a, 1 <= a <= 118 ->
              sortedByFillingOrder (buildElectronConfiguration a)).
    { apply (periodic_table_range (fun a =>
        sortedByFillingOrder (buildElectronConfiguration a))).
      compute_done. }
    intros a ? ?. apply H. lia.
  - rewrite build_table_exhausted.
    + compute_done.
    + lia.
    + apply no_exception_outside. lia.
Qed.

(** C7.  The configuration built for a positive atomic number is sorted by
    the index of its records in the 19-slot filling order, strictly
    increasing.  When [ensureEntry] is asked for a subshell of the table that
    a sorted array does not hold, it creates the record with no electrons and
    splices it in at the position of the first record whose index exceeds the
    new one, after all those with a smaller index, or at the end when no
    record exceeds it, and the array is still sorted. *)
Theorem filling_order_preserved
    (atomicNumber : Z) (config : list Entry) (n : Z) (l : string)
    (k : nat) (template : Orbital) :
  0 < atomicNumber ->
  sortedByFillingOrder config ->
  list_find (isSubshell n l) config = None ->
  list_find (isOrbital n l) ORBITAL_ORDER = Some (k, template) ->
  sortedByFillingOrder (buildElectronConfiguration atomicNumber) /\
  let entry := mkEntry n l (orbital_capacity template) 0 in
  let insertAt := insertionPoint k config in
  ensureEntry config n l =
    (take insertAt config ++ entry :: drop insertAt config, Some insertAt) /\
  orderIndexOf entry = Some k /\
  Forall (fun c => exists kc, orderIndexOf c = Some kc /\ (kc < k)%nat)
         (take insertAt config) /\
  (forall c, config !! insertAt = Some c ->
             exists kc, orderIndexOf c = Some kc /\ (k < kc)%nat) /\
  (config !! insertAt = None -> insertAt = length config) /\
  sortedByFillingOrder (ensureEntry config n l).1.
Proof.
  intros Hpos (ks & Hks & Hsorted) Habsent Htemplate.
  split; [by apply build_sorted|].
  pose proof (template_index _ _ _ _ Htemplate) as Hk.
  apply mapM_Some in Hks. fold hasIndex in Hks.
  pose proof (absent_subshell_index _ _ _ _ _ Hks Habsent Hk) as Hfresh.
  destruct (insertionPoint_split k config ks Hks Hsorted Hfresh)
    as (Hlen & Hbelow & Habove).
  assert (Hcall : ensureEntry config n l =
            (take (insertionPoint k config) config
               ++ mkEntry n l (orbital_capacity template) 0
               :: drop (insertionPoint k config) config,
             Some (insertionPoint k config))).
  { unfold ensureEntry. by rewrite Habsent, Htemplate, Hk. }
  simpl. rewrite Hcall. simpl. split_and!.
  - done.
  - exact Hk.
  - apply Forall_forall. intros c Hc.
    apply list_elem_of_lookup in Hc as [i Hi].
    destruct (Forall2_lookup_l _ _ _ _ _ (Forall2_take _ _ _ (insertionPoint k config) Hks) Hi)
      as (kc & Hkc & Hckc).
    exists kc. split; [done|].
    rewrite Forall_forall in Hbelow. apply Hbelow.
    by eapply list_elem_of_lookup_2.
  - intros c Hc.
    destruct (Forall2_lookup_l _ _ _ _ _ Hks Hc) as (kc & Hkc & Hckc).
    exists kc. split; [done|].
    rewrite Forall_forall in Habove. apply Habove.
    apply list_elem_of_lookup. exists 0%nat.
    rewrite lookup_drop. by rewrite Nat.add_0_r.
  - intros Hnone. apply lookup_ge_None in Hnone. lia.
  - exists (take (insertionPoint k config) ks ++ k :: drop (insertionPoint k config) ks).
    split.
    + apply mapM_Some. apply Forall2_app; [by apply Forall2_take|].
      constructor; [exact Hk|by apply Forall2_drop].
    + rewrite <- (take_drop (insertionPoint k config) ks) in Hsorted.
      apply StronglySorted_app in Hsorted as (Hcross & Hs1 & Hs2).
      apply StronglySorted_app_2; [|done|].
      * intros x1 x2 Hx1 Hx2. apply elem_of_cons in Hx2 as [->|Hx2].
        -- rewrite Forall_forall in Hbelow. by apply Hbelow.
        -- by apply Hcross.
      * by apply StronglySorted_cons.
Qed.

Lemma filling_order_preserved_witness :
  0 < 57 /\
  sortedByFillingOrder (buildElectronConfiguration 57) /\
  (ensureEntry (fill ORBITAL_ORDER 56 []) 5 "d").2 = Some 12%nat.
Proof.
  split; [lia|].
  destruct (filling_order_preserved 57 (fill ORBITAL_ORDER 56 []) 5 "d" 13
              (mkOrbital 5 "d" 10)) as (Hbuilt & Hcall & _).
  - lia.
  - apply (bool_decide_unpack _). vm_compute. exact I.
  - vm_compute. reflexivity.
  - vm_compute. reflexivity.
  - split; [exact Hbuilt|].
    cbv zeta in Hcall. rewrite Hcall. vm_compute. reflexivity.
Defined.

(** *** Atomic numbers outside the table *)

(** C8.  For an atomic number that is zero or negative the builder returns
    the empty configuration. *)
Theorem nonpositive_atomic_number_empty (atomicNumber : Z) :
  atomicNumber <= 0 -> buildElectronConfiguration atomicNumber = [].
Proof.
  intros H. unfold buildElectronConfiguration, applyExceptions.
  rewrite no_exception_outside by lia.
  by apply fill_nothing.
Qed.

Lemma nonpositive_atomic_number_empty_witness :
  -3 <= 0 /\ buildElectronConfiguration (-3) = [].
Proof.
  split; [lia|].
  apply (nonpositive_atomic_number_empty (-3)). lia.
Defined.

(** C10.  For an atomic number of 118 or more without an exception rule the
    builder returns the 19 slots of the filling order, each filled to its
    capacity, 118 electrons in all. *)
Theorem table_exhausted_silently (atomicNumber : Z) :
  118 <= atomicNumber ->
  EXCEPTION_ADJUSTMENTS !! atomicNumber = None ->
  buildElectronConfiguration atomicNumber = full <$> ORBITAL_ORDER /\
  length (buildElectronConfiguration atomicNumber) = 19%nat /\
  Forall (fun c => entry_electrons c = entry_capacity c)
         (buildElectronConfiguration atomicNumber) /\
  totalElectrons (buildElectronConfiguration atomicNumber) = 118.
Proof.
  intros Hge Hex. rewrite (build_table_exhausted _ Hge Hex).
  split_and!; [done|done|compute_done|done].
Qed.

Lemma table_exhausted_silently_witness :
  118 <= 500 /\ EXCEPTION_ADJUSTMENTS !! 500 = None /\
  totalElectrons (buildElectronConfiguration 500) = 118.
Proof.
  split; [lia|]. split; [reflexivity|].
  apply (table_exhausted_silently 500); [lia|reflexivity].
Defined.

End ElectronConfigProofs.

(** ** Properties of the angular field model *)

Module OrbitalsProofs.

Import Orbitals.
Open Scope R_scope.

(** *** Range of the amplitude *)

(** The polar sine [Math.sqrt(Math.max(0, 1 - cosT * cosT))]. *)
Definition sinTheta (cosT : R) : R := sqrt (Rmax 0 (1 - cosT * cosT)).

Lemma sinTheta_bounds cosT :
  -1 <= cosT <= 1 ->
  0 <= sinTheta cosT <= 1 /\ sinTheta cosT * sinTheta cosT = 1 - cosT * cosT.
Proof.
  intros Hc. unfold sinTheta.
  assert (Hpos : 0 <= 1 - cosT * cosT) by nra.
  rewrite Rmax_right by exact Hpos.
  pose proof (sqrt_pos (1 - cosT * cosT)) as Hs.
  pose proof (sqrt_def _ Hpos) as Hsq.
  split; [|exact Hsq]. split; [exact Hs|]. nra.
Qed.

Lemma unit_polar_component dir : isUnit dir -> -1 <= vy dir / 1 <= 1.
Proof.
  unfold isUnit. intros H. rewrite Rdiv_1_r.
  pose proof (Rle_0_sqr (vx dir)) as Hx. pose proof (Rle_0_sqr (vz dir)) as Hz.
  unfold Rsqr in *. nra.
Qed.

Lemma product_bounded a b :
  -1 <= a <= 1 -> -1 <= b <= 1 -> -1 <= a * b <= 1.
Proof. intros. nra. Qed.

Lemma scaled_cubic_bounded st t ct :
  0 <= st <= 1 -> -1 <= t <= 1 -> -1 <= ct <= 1 -> st * st = 1 - ct * ct ->
  -1 <= 0.5 * st * t * (5 * ct * ct - 1) <= 1.
Proof.
  intros Hst Ht Hct Hsq.
  replace (5 * ct * ct - 1) with (4 - 5 * (st * st)) by lra.
  assert (H1 : -2 <= st * (4 - 5 * (st * st)) <= 2).
  { assert (0 <= (st - 1 / 2) * (st - 1 / 2) * (5 * st + 5)) by
      (apply Rmult_le_pos; [apply Rle_0_sqr|lra]).
    nra. }
  assert (H2 : -1 <= 0.5 * (st * (4 - 5 * (st * st))) <= 1) by lra.
  replace (0.5 * st * t * (4 - 5 * (st * st)))
    with (0.5 * (st * (4 - 5 * (st * st))) * t) by ring.
  by apply product_bounded.
Qed.

Lemma amplitude_bounded family variant dir :
  isUnit dir -> -1 <= evaluateOrbitalAmplitude family variant dir <= 1.
Proof.
  intros Hunit. unfold evaluateOrbitalAmplitude. cbv zeta.
  pose proof (unit_polar_component dir Hunit) as Hct.
  fold (sinTheta (vy dir / 1)).
  destruct (sinTheta_bounds _ Hct) as [Hst Hsq].
  set (ct := vy dir / 1) in *. set (st := sinTheta ct) in *.
  set (phi := Math_atan2 (vz dir) (vx dir)).
  pose proof (COS_bound phi) as Hc1. pose proof (SIN_bound phi) as Hs1.
  pose proof (COS_bound (2 * phi)) as Hc2. pose proof (SIN_bound (2 * phi)) as Hs2.
  pose proof (COS_bound (3 * phi)) as Hc3. pose proof (SIN_bound (3 * phi)) as Hs3.
  assert (Hstct : -1 <= st * ct <= 1) by (apply product_bounded; lra).
  assert (Hst2 : -1 <= st * st <= 1) by (apply product_bounded; lra).
  assert (Hst2ct : -1 <= st * st * ct <= 1) by (apply product_bounded; lra).
  assert (Hst3 : -1 <= st ^ 3 <= 1).
  { replace (st ^ 3) with (st * st * st) by ring. apply product_bounded; lra. }
  assert (Hz3 : -1 <= 0.5 * ct * (5 * ct * ct - 3) <= 1).
  { assert (0 <= (1 - ct) * (5 * (ct + 1 / 2) * (ct + 1 / 2) + 3 / 4)) by
      (apply Rmult_le_pos; [lra|pose proof (Rle_0_sqr (ct + 1 / 2)); unfold Rsqr in *; nra]).
    assert (0 <= (1 + ct) * (5 * (ct - 1 / 2) * (ct - 1 / 2) + 3 / 4)) by
      (apply Rmult_le_pos; [lra|pose proof (Rle_0_sqr (ct - 1 / 2)); unfold Rsqr in *; nra]).
    nra. }
  repeat match goal with
         | |- context [String.eqb ?a ?b] => destruct (String.eqb a b)
         end;
    first [ lra
          | by apply product_bounded
          | by apply scaled_cubic_bounded
          | nra ].
Qed.

(** C9.  For every pair of the closed set and every unit direction the
    amplitude lies between -1 and 1 (in exact real arithmetic). *)
Theorem amplitude_in_unit_interval (family variant : string) (dir : Vector3) :
  (family, variant) ∈ enumerated ->
  isUnit dir ->
  -1 <= evaluateOrbitalAmplitude family variant dir <= 1.
Proof. intros _. apply amplitude_bounded. Qed.

Lemma amplitude_in_unit_interval_witness :
  ("f", "fxz2")%string ∈ enumerated /\
  isUnit (mkVector3 0 1 0) /\
  -1 <= evaluateOrbitalAmplitude "f" "fxz2" (mkVector3 0 1 0) <= 1.
Proof.
  assert (Hin : ("f", "fxz2")%string ∈ enumerated).
  { apply (bool_decide_unpack _). vm_compute. exact I. }
  assert (Hunit : isUnit (mkVector3 0 1 0)).
  { unfold isUnit. simpl. lra. }
  split; [exact Hin|]. split; [exact Hunit|].
  exact (amplitude_in_unit_interval "f" "fxz2" (mkVector3 0 1 0) Hin Hunit).
Defined.

(** *** Pairs outside the closed set *)

Ltac decide_tests :=
  repeat match goal with
         | |- context [String.eqb ?a ?b] =>
             destruct (String.eqb_spec a b); try congruence
         end.

(** C3, as the code has it.  A pair whose family is not p, d or f has
    amplitude 1 in every direction and no nodal group.  An unrecognised
    variant of family p, d or f falls back within its family: the amplitude
    is that of pz, of dx2y2 and of fz3, and the nodal group is that of pz,
    that of dx2y2 and a single plane of normal (0, 1, 0). *)
Theorem unrecognized_pair_fallback (cfg : OrbitalConfig) (dir : Vector3) (size : R) :
  (family cfg ∉ ["p"; "d"; "f"]%string ->
     evaluateOrbitalAmplitude (family cfg) (variant cfg) dir = 1 /\
     buildNodalGroup cfg size = None) /\
  (family cfg = "p"%string -> variant cfg ∉ ["px"; "py"]%string ->
     evaluateOrbitalAmplitude (family cfg) (variant cfg) dir =
       evaluateOrbitalAmplitude "p" "pz" dir /\
     buildNodalGroup cfg size = Some [createPlaneNode (mkVector3 0 0 1) size]) /\
  (family cfg = "d"%string -> variant cfg ∉ ["dz2"; "dxz"; "dyz"; "dxy"]%string ->
     evaluateOrbitalAmplitude (family cfg) (variant cfg) dir =
       evaluateOrbitalAmplitude "d" "dx2y2" dir /\
     buildNodalGroup cfg size =
       Some [createPlaneNode (normalize (mkVector3 1 1 0)) size;
             createPlaneNode (normalize (mkVector3 1 (-1) 0)) size]) /\
  (family cfg = "f"%string ->
   variant cfg ∉ ["fz3"; "fxz2"; "fyz2"; "fzx2y2"; "fxyz"; "fcos3"; "fsin3"]%string ->
     evaluateOrbitalAmplitude (family cfg) (variant cfg) dir =
       evaluateOrbitalAmplitude "f" "fz3" dir /\
     buildNodalGroup cfg size = Some [createPlaneNode (mkVector3 0 1 0) size]).
Proof.
  split_and!.
  - intros Hf. rewrite !not_elem_of_cons in Hf. destruct_and!.
    unfold evaluateOrbitalAmplitude, buildNodalGroup, nodalChildren.
    split; decide_tests; reflexivity.
  - intros Hf Hv. rewrite !not_elem_of_cons in Hv. destruct_and!.
    unfold evaluateOrbitalAmplitude, buildNodalGroup, nodalChildren.
    rewrite Hf. split; decide_tests; reflexivity.
  - intros Hf Hv. rewrite !not_elem_of_cons in Hv. destruct_and!.
    unfold evaluateOrbitalAmplitude, buildNodalGroup, nodalChildren.
    rewrite Hf. split; decide_tests; reflexivity.
  - intros Hf Hv. rewrite !not_elem_of_cons in Hv. destruct_and!.
    unfold evaluateOrbitalAmplitude, buildNodalGroup, nodalChildren.
    rewrite Hf. split; decide_tests; reflexivity.
Qed.

Lemma unrecognized_pair_fallback_witness :
  evaluateOrbitalAmplitude "g" "gz4" (mkVector3 1 0 0) = 1 /\
  buildNodalGroup (mkOrbitalConfig "g" "gz4" 1 1 1) 1 = None.
Proof.
  apply (unrecognized_pair_fallback (mkOrbitalConfig "g" "gz4" 1 1 1)
           (mkVector3 1 0 0) 1).
  apply (bool_decide_unpack _). vm_compute. exact I.
Defined.

(** The claim as stated fails: the pair (p, foo) is outside the closed set,
    and its amplitude along the x axis is the pz value 0, not 1. *)
Lemma unrecognized_variant_counterexample :
  ~ (forall (family variant : string) (dir : Vector3) (size : R),
       (family, variant) ∉ enumerated ->
       evaluateOrbitalAmplitude family variant dir = 1 /\
       buildNodalGroup (mkOrbitalConfig family variant 1 1 1) size = None).
Proof.
  intros H.
  destruct (H "p" "foo" (mkVector3 1 0 0) 1)%string as [Hamp _].
  - apply (bool_decide_unpack _). vm_compute. exact I.
  - unfold evaluateOrbitalAmplitude in Hamp. simpl in Hamp. lra.
Qed.

(** *** Amplitude at the listed nodal-plane normals *)

Lemma normalize_unit v : isUnit v -> normalize v = v.
Proof.
  unfold isUnit, normalize, vlength. intros ->. rewrite sqrt_1.
  destruct (Req_dec_T 1 0) as [H|_]; [lra|].
  destruct v as [x y z]. simpl. f_equal; lra.
Qed.

Lemma normalize_isUnit v : vlength v <> 0 -> isUnit (normalize v).
Proof.
  unfold isUnit, normalize. intros Hlen.
  destruct (Req_dec_T (vlength v) 0) as [H|_]; [done|].
  simpl.
  assert (Hsq : vlength v * vlength v = vx v * vx v + vy v * vy v + vz v * vz v).
  { unfold vlength. apply sqrt_def.
    pose proof (Rle_0_sqr (vx v)). pose proof (Rle_0_sqr (vy v)).
    pose proof (Rle_0_sqr (vz v)). unfold Rsqr in *. lra. }
  replace (vx v / vlength v * (vx v / vlength v) +
           vy v / vlength v * (vy v / vlength v) +
           vz v / vlength v * (vz v / vlength v))
    with ((vx v * vx v + vy v * vy v + vz v * vz v) / (vlength v * vlength v))
    by (field; done).
  rewrite <- Hsq. field. done.
Qed.

Lemma sqrt2_sq : sqrt 2 * sqrt 2 = 2.
Proof. apply sqrt_def. lra. Qed.

Lemma sqrt2_pos : 0 < sqrt 2.
Proof. apply sqrt_lt_R0. lra. Qed.

(** [new THREE.Vector3(1, 1, 0).normalize()] and its mirror image. *)
Lemma diagonal_normal (s : R) :
  s = 1 \/ s = -1 ->
  normalize (mkVector3 1 s 0) = mkVector3 (1 / sqrt 2) (s / sqrt 2) 0 /\
  isUnit (normalize (mkVector3 1 s 0)).
Proof.
  intros Hs.
  assert (Hlen : vlength (mkVector3 1 s 0) = sqrt 2).
  { unfold vlength. simpl. f_equal. destruct Hs as [-> | ->]; lra. }
  pose proof sqrt2_pos as Hpos.
  split.
  - unfold normalize. rewrite Hlen.
    destruct (Req_dec_T (sqrt 2) 0) as [H|_]; [lra|].
    simpl. f_equal. lra.
  - apply normalize_isUnit. rewrite Hlen. lra.
Qed.

Lemma sinTheta_equator : sinTheta 0 = 1.
Proof.
  unfold sinTheta. replace (1 - 0 * 0) with 1 by lra.
  rewrite Rmax_right by lra. apply sqrt_1.
Qed.

Lemma sinTheta_pole : sinTheta 1 = 0.
Proof.
  unfold sinTheta. replace (1 - 1 * 1) with 0 by lra.
  rewrite Rmax_right by lra. apply sqrt_0.
Qed.

Lemma sinTheta_diagonal (s : R) :
  s = 1 \/ s = -1 ->
  sinTheta (s / sqrt 2) * sinTheta (s / sqrt 2) = 1 / 2.
Proof.
  intros Hs. pose proof sqrt2_pos as Hpos. pose proof sqrt2_sq as Hsq.
  assert (Hhalf : s / sqrt 2 * (s / sqrt 2) = 1 / 2).
  { replace (s / sqrt 2 * (s / sqrt 2)) with (s * s / (sqrt 2 * sqrt 2))
      by (field; lra).
    rewrite Hsq. destruct Hs as [-> | ->]; lra. }
  assert (Hrange : -1 <= s / sqrt 2 <= 1) by nra.
  destruct (sinTheta_bounds _ Hrange) as [_ ->]. lra.
Qed.

Lemma atan2_right y x : 0 < x -> Math_atan2 y x = atan (y / x).
Proof. intros Hx. unfold Math_atan2. by destruct (Rlt_dec 0 x). Qed.

Lemma atan2_axis x : 0 < x -> Math_atan2 0 x = 0.
Proof.
  intros Hx. rewrite atan2_right by done.
  replace (0 / x) with 0 by (field; lra). apply atan_0.
Qed.

Lemma atan2_up : Math_atan2 1 0 = PI / 2.
Proof.
  unfold Math_atan2.
  destruct (Rlt_dec 0 0) as [H|_]; [lra|].
  destruct (Rlt_dec 0 0) as [H|_]; [lra|].
  destruct (Rlt_dec 0 1) as [_|H]; [done|lra].
Qed.

Lemma sqrt3_pos : 0 < sqrt 3.
Proof. apply sqrt_lt_R0. lra. Qed.

Lemma atan2_sixth : Math_atan2 (1 / 2) (sqrt 3 / 2) = PI / 6.
Proof.
  pose proof sqrt3_pos as H3. pose proof PI_RGT_0 as Hpi.
  rewrite atan2_right by lra.
  replace (1 / 2 / (sqrt 3 / 2)) with (1 / sqrt 3) by (field; lra).
  rewrite <- tan_PI6. apply atan_tan. lra.
Qed.

Lemma atan2_minus_sixth : Math_atan2 (-1 / 2) (sqrt 3 / 2) = - (PI / 6).
Proof.
  pose proof sqrt3_pos as H3. pose proof PI_RGT_0 as Hpi.
  rewrite atan2_right by lra.
  replace (-1 / 2 / (sqrt 3 / 2)) with (- (1 / sqrt 3)) by (field; lra).
  rewrite atan_opp. f_equal.
  rewrite <- tan_PI6. apply atan_tan. lra.
Qed.

(** The two slanted normals of the fcos3 and fsin3 entries. *)
Lemma slanted_normals :
  mkVector3 (sin (PI / 3)) 0 (cos (PI / 3)) = mkVector3 (sqrt 3 / 2) 0 (1 / 2) /\
  mkVector3 (sin ((2 * PI) / 3)) 0 (cos ((2 * PI) / 3))
    = mkVector3 (sqrt 3 / 2) 0 (-1 / 2).
Proof.
  split.
  - by rewrite sin_PI3, cos_PI3.
  - replace (2 * PI / 3) with (2 * (PI / 3)) by lra.
    by rewrite sin_2PI3, cos_2PI3.
Qed.

Lemma slanted_unit (c : R) :
  c = 1 / 2 \/ c = -1 / 2 -> isUnit (mkVector3 (sqrt 3 / 2) 0 c).
Proof.
  intros Hc. unfold isUnit. simpl.
  assert (Hsq : sqrt 3 * sqrt 3 = 3) by (apply sqrt_def; lra).
  destruct Hc as [-> | ->]; nra.
Qed.

Lemma axis_unit :
  isUnit (mkVector3 1 0 0) /\ isUnit (mkVector3 0 1 0) /\ isUnit (mkVector3 0 0 1).
Proof. unfold isUnit. simpl. lra. Qed.

Ltac amplitude_at :=
  unfold evaluateOrbitalAmplitude; simpl; rewrite ?Rdiv_1_r;
  repeat match goal with
         | |- context [sqrt (Rmax 0 (1 - ?c * ?c))] => fold (sinTheta c)
         end.

Lemma normalize_axes :
  normalize (mkVector3 1 0 0) = mkVector3 1 0 0 /\
  normalize (mkVector3 0 1 0) = mkVector3 0 1 0 /\
  normalize (mkVector3 0 0 1) = mkVector3 0 0 1.
Proof.
  destruct axis_unit as (Hx & Hy & Hz).
  split_and!; by apply normalize_unit.
Qed.

Lemma normalize_slanted :
  normalize (mkVector3 (sin (PI / 3)) 0 (cos (PI / 3)))
    = mkVector3 (sqrt 3 / 2) 0 (1 / 2) /\
  normalize (mkVector3 (sin ((2 * PI) / 3)) 0 (cos ((2 * PI) / 3)))
    = mkVector3 (sqrt 3 / 2) 0 (-1 / 2).
Proof.
  destruct slanted_normals as [-> ->].
  split; apply normalize_unit, slanted_unit; auto.
Qed.

Lemma normalize_diagonal (s : R) :
  s = 1 \/ s = -1 ->
  normalize (normalize (mkVector3 1 s 0)) = mkVector3 (1 / sqrt 2) (s / sqrt 2) 0.
Proof.
  intros Hs. destruct (diagonal_normal s Hs) as [Heq Hunit].
  by rewrite normalize_unit.
Qed.

Ltac nodal_normals :=
  unfold buildNodalGroup, nodalChildren, createPlaneNode; simpl;
  destruct normalize_axes as (Hnx & Hny & Hnz);
  destruct normalize_slanted as (Hn3 & Hn23);
  rewrite ?Hnx, ?Hny, ?Hnz, ?Hn3, ?Hn23,
    ?(normalize_diagonal 1) by auto;
  rewrite ?(normalize_diagonal (-1)) by auto;
  clear Hnx Hny Hnz Hn3 Hn23.

Ltac polar_values :=
  amplitude_at;
  rewrite ?sinTheta_equator, ?sinTheta_pole, ?atan2_up, ?atan2_sixth,
    ?atan2_minus_sixth;
  rewrite ?atan2_axis by (try apply Rdiv_lt_0_compat; try apply sqrt2_pos; lra).

Lemma inv_sqrt2_pos : 0 < 1 / sqrt 2.
Proof. apply Rdiv_lt_0_compat; [lra|apply sqrt2_pos]. Qed.

Lemma trig_values :
  cos (2 * 0) = 1 /\ sin (2 * 0) = 0 /\
  cos (3 * (PI / 6)) = 0 /\ cos (3 * - (PI / 6)) = 0 /\
  sin (3 * (PI / 6)) = 1 /\ sin (3 * 0) = 0.
Proof.
  replace (2 * 0) with 0 by lra. replace (3 * 0) with 0 by lra.
  replace (3 * (PI / 6)) with (PI / 2) by lra.
  replace (3 * - (PI / 6)) with (- (PI / 2)) by lra.
  rewrite cos_neg, cos_0, sin_0, cos_PI2, sin_PI2. done.
Qed.

(** The variants whose listed planes are nodal planes of the amplitude as
    the code computes it, with the y axis as polar axis.  For s and dz2 no
    plane is listed; the planes of dyz and fxyz are perpendicular to one
    another, so the normal of each lies in another one and the amplitude
    vanishes there.  px, fz3 and fxz2 list a single nodal plane, whose normal
    is an axis of the lobes. *)
Definition zeroAtNormals : list (string * string) :=
  [ ("s", "s"); ("d", "dz2"); ("d", "dyz"); ("f", "fxyz") ]%string.

Definition nonzeroAtNormal : list (string * string) :=
  [ ("p", "px"); ("f", "fz3"); ("f", "fxz2") ]%string.

Ltac trig_finish :=
  destruct trig_values as (Hc20 & Hs20 & Hc36 & Hc36' & Hs36 & Hs30);
  rewrite ?cos_3PI2, ?cos_0, ?sin_0, ?Hc20, ?Hs20, ?Hc36, ?Hc36', ?Hs36, ?Hs30,
    ?(sinTheta_diagonal 1), ?(sinTheta_diagonal (-1)) by auto;
  try lra.

(** The amplitudes that do not vanish at a listed normal. *)
Lemma nonzero_values :
  evaluateOrbitalAmplitude "p" "px" (mkVector3 1 0 0) = 1 /\
  evaluateOrbitalAmplitude "d" "dx2y2" (mkVector3 (1 / sqrt 2) (1 / sqrt 2) 0) = 1 / 2 /\
  evaluateOrbitalAmplitude "f" "fz3" (mkVector3 0 1 0) = 1 /\
  evaluateOrbitalAmplitude "f" "fxz2" (mkVector3 1 0 0) = - (1 / 2) /\
  evaluateOrbitalAmplitude "f" "fzx2y2" (mkVector3 (1 / sqrt 2) (1 / sqrt 2) 0)
    = 1 / 2 * (1 / sqrt 2) /\
  evaluateOrbitalAmplitude "f" "fsin3" (mkVector3 (sqrt 3 / 2) 0 (1 / 2)) = 1.
Proof.
  split_and!; polar_values; trig_finish.
Qed.

(** C2, for the variants whose listed planes are nodal planes of the
    amplitude.  At each plane normal listed for the variant the amplitude is
    0 for s and dz2 (which list no plane), dyz and fxyz.  px, fz3 and fxz2
    list a plane, and at each listed normal the amplitude is not 0: the
    normal of the single nodal plane is an axis of the lobes.  Both lists lie
    in the closed set; the other variants are left out. *)
Theorem amplitude_at_nodal_normals (cfg : OrbitalConfig) (size : R) :
  ((family cfg, variant cfg) ∈ zeroAtNormals ->
     Forall (fun n => evaluateOrbitalAmplitude (family cfg) (variant cfg) n = 0)
            (planeNormals (buildNodalGroup cfg size))) /\
  ((family cfg, variant cfg) ∈ nonzeroAtNormal ->
     planeNormals (buildNodalGroup cfg size) <> [] /\
     Forall (fun n => evaluateOrbitalAmplitude (family cfg) (variant cfg) n <> 0)
            (planeNormals (buildNodalGroup cfg size))) /\
  zeroAtNormals ++ nonzeroAtNormal ⊆ enumerated.
Proof.
  destruct cfg as [f v b rs p]. simpl. split_and!.
  - intros Hin. unfold zeroAtNormals in Hin.
    repeat (apply elem_of_cons in Hin as [[= -> ->]|Hin];
      [ nodal_normals; repeat constructor; polar_values; trig_finish |]).
    by apply elem_of_nil in Hin.
  - intros Hin. unfold nonzeroAtNormal in Hin.
    destruct nonzero_values as (Hpx & _ & Hfz3 & Hfxz2 & _).
    repeat (apply elem_of_cons in Hin as [[= -> ->]|Hin];
      [ nodal_normals; split; [discriminate|];
        repeat constructor;
        first [rewrite Hpx|rewrite Hfz3|rewrite Hfxz2]; lra |]).
    by apply elem_of_nil in Hin.
  - apply (bool_decide_unpack _). vm_compute. exact I.
Qed.

Lemma amplitude_at_nodal_normals_witness :
  Forall (fun n => evaluateOrbitalAmplitude "d" "dyz" n = 0)
         (planeNormals (buildNodalGroup (mkOrbitalConfig "d" "dyz" 1 1 1) 1)) /\
  Forall (fun n => evaluateOrbitalAmplitude "p" "px" n <> 0)
         (planeNormals (buildNodalGroup (mkOrbitalConfig "p" "px" 1 1 1) 1)).
Proof.
  split.
  - apply (amplitude_at_nodal_normals (mkOrbitalConfig "d" "dyz" 1 1 1) 1).
    apply (bool_decide_unpack _). vm_compute. exact I.
  - destruct (amplitude_at_nodal_normals (mkOrbitalConfig "p" "px" 1 1 1) 1)
      as (_ & Hnonzero & _).
    apply Hnonzero.
    apply (bool_decide_unpack _). vm_compute. exact I.
Defined.

(** The claim as stated fails: px lists the plane of normal (1, 0, 0), and
    the px amplitude in that direction is 1. *)
Lemma nodal_normal_counterexample :
  ~ (forall (cfg : OrbitalConfig) (size : R) (n : Vector3),
       (family cfg, variant cfg) ∈ enumerated ->
       n ∈ planeNormals (buildNodalGroup cfg size) ->
       evaluateOrbitalAmplitude (family cfg) (variant cfg) n = 0).
Proof.
  intros H.
  specialize (H (mkOrbitalConfig "p" "px" 1 1 1) 1 (mkVector3 1 0 0)).
  destruct nonzero_values as (Hpx & _).
  simpl in H. rewrite Hpx in H.
  assert (1 = 0); [|lra].
  apply H.
  - apply (bool_decide_unpack _). vm_compute. exact I.
  - nodal_normals. apply list_elem_of_here.
Qed.

End OrbitalsProofs.

(** ** Further properties of the configuration builder *)

Module ElectronConfigExtras.

Import ElectronConfig ElectronConfigProofs.
Open Scope Z_scope.

(** *** The filling loop in general *)

Lemma fill_app order : forall remaining config,
  fill order remaining config = config ++ fill order remaining [].
Proof.
  induction order as [|o rest IH]; intros remaining config; simpl.
  - by rewrite app_nil_r.
  - case_bool_decide; [by rewrite app_nil_r|].
    rewrite IH. rewrite (IH _ [_]). by rewrite <- app_assoc.
Qed.

Lemma fill_cons o rest remaining :
  fill (o :: rest) remaining [] =
    if bool_decide (remaining <= 0) then []
    else occupy o (Z.min (orbital_capacity o) remaining)
           :: fill rest (remaining - Z.min (orbital_capacity o) remaining) [].
Proof. simpl. case_bool_decide; [done|]. by rewrite fill_app. Qed.

Lemma capacityOf_nonneg order :
  Forall (fun o => 0 < orbital_capacity o) order -> 0 <= capacityOf order.
Proof. induction 1; simpl; lia. Qed.

Lemma totalElectrons_app c1 c2 :
  totalElectrons (c1 ++ c2) = totalElectrons c1 + totalElectrons c2.
Proof. induction c1 as [|c c1 IH]; simpl; [done|]. rewrite IH. lia. Qed.

(** The slot a record was made from. *)
Definition slotOf (c : Entry) : Orbital :=
  mkOrbital (entry_n c) (entry_l c) (entry_capacity c).

(** For any table of slots with positive capacities and any number of
    electrons, the plain filling holds [min remaining capacity] electrons
    (none when [remaining] is negative), its records are made from an initial
    segment of the table in order, every record holds between one electron
    and its capacity, and every record but the last is full. *)
Theorem fill_aufbau (order : list Orbital) (remaining : Z) :
  Forall (fun o => 0 < orbital_capacity o) order ->
  totalElectrons (fill order remaining []) = Z.max 0 (Z.min remaining (capacityOf order)) /\
  slotOf <$> fill order remaining [] = take (length (fill order remaining [])) order /\
  (forall (i : nat) c, fill order remaining [] !! i = Some c ->
     0 < entry_electrons c <= entry_capacity c /\
     ((S i < length (fill order remaining []))%nat ->
      entry_electrons c = entry_capacity c)).
Proof.
  intros Hpos. revert remaining.
  induction Hpos as [|o rest Ho Hrest IH]; intros remaining.
  - simpl. split_and!; [lia|done|]. intros i c H. by rewrite lookup_nil in H.
  - pose proof (capacityOf_nonneg rest Hrest) as Hcap.
    rewrite fill_cons. case_bool_decide as Hle.
    + simpl. split_and!; [lia|done|]. intros i c H. by rewrite lookup_nil in H.
    + destruct (IH (remaining - Z.min (orbital_capacity o) remaining))
        as (Htot & Hslots & Hrec).
      set (tail := fill rest (remaining - Z.min (orbital_capacity o) remaining) []) in *.
      split_and!.
      * simpl. rewrite Htot. lia.
      * rewrite fmap_cons. cbn [length take]. rewrite Hslots. by destruct o.
      * intros [|i] c Hc; simpl in Hc.
        -- injection Hc as <-. simpl. split; [lia|].
           intros Hlen.
           destruct (decide (orbital_capacity o <= remaining)) as [Hfit|Hshort];
             [lia|].
           assert (Hempty : tail = []).
           { unfold tail. destruct rest; [done|].
             rewrite fill_cons. rewrite bool_decide_eq_true_2; [done|lia]. }
           rewrite Hempty in Hlen. simpl in Hlen. lia.
        -- destruct (Hrec i c Hc) as [Hb Hfull]. split; [done|].
           intros Hlen. apply Hfull. simpl in Hlen. lia.
Qed.

Lemma fill_aufbau_witness :
  Forall (fun o => 0 < orbital_capacity o) ORBITAL_ORDER /\
  totalElectrons (fill ORBITAL_ORDER 200 [])
    = Z.max 0 (Z.min 200 (capacityOf ORBITAL_ORDER)).
Proof.
  split; [exact capacities_positive|].
  destruct (fill_aufbau ORBITAL_ORDER 200 capacities_positive) as (Htotal & _).
  exact Htotal.
Defined.

(** For every integer atomic number the built configuration holds
    [min atomicNumber 118] electrons, and none when the number is negative. *)
Theorem build_total_all_integers (atomicNumber : Z) :
  totalElectrons (buildElectronConfiguration atomicNumber)
    = Z.max 0 (Z.min atomicNumber 118).
Proof.
  destruct (decide (atomicNumber <= 0)) as [Hneg|Hpos].
  - unfold buildElectronConfiguration, applyExceptions.
    rewrite no_exception_outside by lia.
    rewrite fill_nothing by done. simpl. lia.
  - destruct (decide (atomicNumber <= 118)) as [Hle|Hgt].
    + revert atomicNumber Hpos Hle.
      assert (H : forall a, 1 <= a <= 118 ->
                totalElectrons (buildElectronConfiguration a) = Z.max 0 (Z.min a 118)).
      { apply (periodic_table_range (fun a =>
          totalElectrons (buildElectronConfiguration a) = Z.max 0 (Z.min a 118))).
        compute_done. }
      intros a ? ?. apply H. lia.
    + rewrite build_table_exhausted; [|lia|apply no_exception_outside; lia].
      change (totalElectrons (full <$> ORBITAL_ORDER)) with 118. lia.
Qed.

(** The text of the configuration identifies the element: the formatted
    configurations of the atomic numbers 1 to 118 are pairwise different. *)
Theorem formatted_configurations_distinct (a b : Z) :
  1 <= a <= 118 -> 1 <= b <= 118 ->
  formatElectronConfiguration (buildElectronConfiguration a)
    = formatElectronConfiguration (buildElectronConfiguration b) ->
  a = b.
Proof.
  intros Ha Hb Heq.
  set (f := fun k : nat =>
              formatElectronConfiguration (buildElectronConfiguration (Z.of_nat k))).
  assert (Hnodup : NoDup (f <$> seq 1 118)) by compute_done.
  assert (Hlook : forall c, 1 <= c <= 118 ->
            (f <$> seq 1 118) !! (Z.to_nat c - 1)%nat
              = Some (formatElectronConfiguration (buildElectronConfiguration c))).
  { intros c Hc. rewrite list_lookup_fmap, lookup_seq_lt by lia. simpl.
    unfold f. do 3 f_equal. lia. }
  pose proof (Hlook b Hb) as Hb'. rewrite <- Heq in Hb'.
  pose proof (NoDup_lookup _ _ _ _ Hnodup (Hlook a Ha) Hb') as Hinj. lia.
Qed.

Lemma formatted_configurations_distinct_witness :
  1 <= 24 <= 118 /\
  formatElectronConfiguration (buildElectronConfiguration 24)
    = formatElectronConfiguration (buildElectronConfiguration 24) /\
  24 = 24.
Proof.
  split; [lia|]. split; [reflexivity|].
  apply (formatted_configurations_distinct 24 24); [lia|lia|reflexivity].
Defined.

(** *** [ensureEntry] *)

Lemma insertionPoint_le k config :
  (insertionPoint k config <= length config)%nat.
Proof.
  induction config as [|c config IH]; cbn [insertionPoint length]; [lia|].
  destruct (orderIndexOf c); [case_bool_decide|]; lia.
Qed.

Lemma spliceIn_lookup i e config :
  (i <= length config)%nat -> spliceIn i e config !! i = Some e.
Proof.
  intros Hi. unfold spliceIn.
  rewrite lookup_app_r by (rewrite length_take; lia).
  rewrite length_take. by replace (i - i `min` length config)%nat with 0%nat by lia.
Qed.

Lemma spliceIn_delete i e config :
  (i <= length config)%nat -> delete i (spliceIn i e config) = config.
Proof.
  intros Hi. unfold spliceIn.
  assert (Hlen : length (take i config) = i) by (rewrite length_take; lia).
  rewrite <- Hlen at 1. rewrite delete_middle. apply take_drop.
Qed.

Lemma spliceIn_find n l i e config :
  (i <= length config)%nat ->
  list_find (isSubshell n l) config = None ->
  isSubshell n l e ->
  list_find (isSubshell n l) (spliceIn i e config) = Some (i, e).
Proof.
  intros Hi Hnone He. apply list_find_Some. split_and!.
  - by apply spliceIn_lookup.
  - done.
  - intros j y Hj Hlt. unfold spliceIn in Hj.
    rewrite lookup_app_l in Hj by (rewrite length_take; lia).
    apply lookup_take_Some in Hj as [Hj _].
    apply list_find_None in Hnone. rewrite Forall_forall in Hnone.
    apply Hnone. by eapply list_elem_of_lookup_2.
Qed.

(** The array [ensureEntry] leaves is the array it was given with one record
    spliced in, when it creates one. *)
Lemma ensureEntry_created config n l k template :
  list_find (isSubshell n l) config = None ->
  list_find (isOrbital n l) ORBITAL_ORDER = Some (k, template) ->
  exists i, (i <= length config)%nat /\
    ensureEntry config n l =
      (spliceIn i (mkEntry n l (orbital_capacity template) 0) config, Some i).
Proof.
  intros Hnone Htemplate. unfold ensureEntry. rewrite Hnone, Htemplate.
  destruct (ORDER_INDEX !! subshellKey n l) as [orderIndex|].
  - exists (insertionPoint orderIndex config). split; [apply insertionPoint_le|done].
  - exists (length config). split; [lia|].
    unfold spliceIn. by rewrite firstn_all, drop_all.
Qed.

(** What [ensureEntry] returns.  When it returns a record, that record is the
    first one of the array for the subshell asked for; it is either a record
    the array already held, the array being left as it was, or a new record
    without electrons whose capacity is that of the table, and removing it
    gives the array back.  It returns [null] only for a subshell that neither
    the array nor the table holds, and then leaves the array as it was.  A
    second call returns the same record and changes nothing. *)
Theorem ensureEntry_returns (config : list Entry) (n : Z) (l : string) :
  match ensureEntry config n l with
  | (config', Some i) =>
      exists c, list_find (isSubshell n l) config' = Some (i, c) /\
        ((config' = config) \/
         (list_find (isSubshell n l) config = None /\
          entry_electrons c = 0 /\
          (exists k template,
             list_find (isOrbital n l) ORBITAL_ORDER = Some (k, template) /\
             entry_capacity c = orbital_capacity template) /\
          delete i config' = config))
  | (config', None) =>
      config' = config /\
      list_find (isSubshell n l) config = None /\
      list_find (isOrbital n l) ORBITAL_ORDER = None
  end /\
  ensureEntry (ensureEntry config n l).1 n l = ensureEntry config n l.
Proof.
  destruct (list_find (isSubshell n l) config) as [[i c]|] eqn:Hfind.
  - assert (Hcall : ensureEntry config n l = (config, Some i))
      by (unfold ensureEntry; by rewrite Hfind).
    rewrite Hcall. simpl. split; [|done].
    exists c. split; [done|by left].
  - destruct (list_find (isOrbital n l) ORBITAL_ORDER) as [[k template]|] eqn:Htemplate.
    + destruct (ensureEntry_created config n l k template Hfind Htemplate)
        as (i & Hi & Hcall).
      rewrite Hcall. cbn [fst].
      pose proof (spliceIn_find n l i (mkEntry n l (orbital_capacity template) 0)
                    config Hi Hfind (conj eq_refl eq_refl)) as Hfound.
      split.
      * eexists. split; [exact Hfound|]. right.
        split_and!; [done|done|by exists k, template|by apply spliceIn_delete].
      * unfold ensureEntry at 1. by rewrite Hfound.
    + assert (Hcall : ensureEntry config n l = (config, None))
        by (unfold ensureEntry; by rewrite Hfind, Htemplate).
      rewrite Hcall. simpl. split; [done|exact Hcall].
Qed.

(** *** The pruning loop *)

(** The pruning loop, which scans the array from its last index down and
    splices out the records without electrons, leaves exactly the records
    that hold at least one electron, in their order; so [applyExceptions]
    returns those records of the array the rules have produced, and the
    array untouched when the atomic number has no rule. *)
Theorem pruning_loop_is_filter (config : list Entry) (atomicNumber : Z) :
  prune config = filter (fun c => 0 < entry_electrons c) config /\
  applyExceptions config atomicNumber =
    match EXCEPTION_ADJUSTMENTS !! atomicNumber with
    | Some ops => filter (fun c => 0 < entry_electrons c) (foldl applyOp config ops)
    | None => config
    end.
Proof.
  assert (Hprune : forall cfg,
            prune cfg = filter (fun c => 0 < entry_electrons c) cfg).
  { intros cfg. unfold prune. rewrite pruneFrom_filter by done.
    by rewrite firstn_all, drop_all, app_nil_r. }
  split; [apply Hprune|].
  unfold applyExceptions.
  destruct (EXCEPTION_ADJUSTMENTS !! atomicNumber); [apply Hprune|done].
Qed.

(** *** Conservation of electrons by a rule *)

Lemma totalElectrons_alter f i c : forall config,
  config !! i = Some c ->
  totalElectrons (alter f i config)
    = totalElectrons config - entry_electrons c + entry_electrons (f c).
Proof.
  revert i. induction i as [|i IH]; intros [|c' config] Hc; try done.
  - injection Hc as ->. simpl. lia.
  - simpl in Hc. cbn [alter list_alter totalElectrons foldr].
    fold (totalElectrons config). fold (totalElectrons (alter f i config)).
    rewrite (IH _ Hc). lia.
Qed.

Lemma totalElectrons_spliceIn i e config :
  totalElectrons (spliceIn i e config) = totalElectrons config + entry_electrons e.
Proof.
  unfold spliceIn. rewrite totalElectrons_app. simpl.
  rewrite <- (take_drop i config) at 3. rewrite totalElectrons_app. lia.
Qed.

(** Changing the electrons of one record does not change which record is
    found for a subshell. *)
Lemma list_find_setElectrons n l (g : Entry -> Z) i config :
  list_find (isSubshell n l) (alter (fun c => setElectrons (g c) c) i config)
  = (fun p => (p.1, if decide (p.1 = i) then setElectrons (g p.2) p.2 else p.2))
      <$> list_find (isSubshell n l) config.
Proof.
  set (f := fun c => setElectrons (g c) c).
  assert (Hkey : forall c, isSubshell n l (f c) <-> isSubshell n l c) by done.
  destruct (list_find (isSubshell n l) config) as [[j x]|] eqn:E; simpl.
  - apply list_find_Some in E as (Hj & HP & Hmin).
    apply list_find_Some. split_and!.
    + case_decide as Hji.
      * subst j. by rewrite list_lookup_alter_eq, Hj.
      * by rewrite list_lookup_alter_ne.
    + case_decide; [by apply Hkey|done].
    + intros k y Hk Hlt.
      destruct (decide (i = k)) as [->|Hne].
      * rewrite list_lookup_alter_eq in Hk.
        destruct (config !! k) as [y'|] eqn:Hy'; [|done].
        injection Hk as <-. rewrite Hkey. by eapply Hmin.
      * rewrite list_lookup_alter_ne in Hk by done. by eapply Hmin.
  - apply list_find_None in E. apply list_find_None.
    apply Forall_alter; [done|]. intros x _ Hx. by rewrite Hkey.
Qed.

(** A rule moves its electrons without changing the total when the source
    record exists and holds at least [count] electrons and the destination,
    a different subshell, has room for them: it is either a record of the
    array with [count] free places, or a subshell of the table whose capacity
    is at least [count]. *)
Theorem move_conserves_total
    (config : list Entry) (fn : Z) (fl : string) (tn : Z) (tl : string)
    (count : Z) (i : nat) (src : Entry) :
  0 <= count ->
  list_find (isSubshell fn fl) config = Some (i, src) ->
  count <= entry_electrons src ->
  (fn, fl) <> (tn, tl) ->
  match list_find (isSubshell tn tl) config with
  | Some (_, dest) => entry_electrons dest + count <= entry_capacity dest
  | None => exists k template,
      list_find (isOrbital tn tl) ORBITAL_ORDER = Some (k, template) /\
      count <= orbital_capacity template
  end ->
  totalElectrons
    (applyOp config (mkOp (Some (mkTransfer fn fl count))
                          (Some (mkTransfer tn tl count))))
  = totalElectrons config.
Proof.
  intros Hcount Hsrc Henough Hdiff Hroom.
  unfold applyOp, applyFrom, applyTo. cbn [op_from op_to transfer_n transfer_l transfer_count].
  rewrite Hsrc.
  set (config1 := alter _ i config).
  assert (Hsrc' := Hsrc). apply list_find_Some in Hsrc' as (Hi & [Hsn Hsl] & _).
  assert (Htotal1 : totalElectrons config1 = totalElectrons config - count).
  { unfold config1. rewrite (totalElectrons_alter _ _ _ _ Hi). simpl. lia. }
  assert (Hfind1 : list_find (isSubshell tn tl) config1
            = (fun p => (p.1, if decide (p.1 = i)
                              then setElectrons (Z.max 0 (entry_electrons p.2 - count)) p.2
                              else p.2))
                <$> list_find (isSubshell tn tl) config).
  { unfold config1.
    apply (list_find_setElectrons tn tl
             (fun c => Z.max 0 (entry_electrons c - count))). }
  destruct (list_find (isSubshell tn tl) config) as [[j dest]|] eqn:Hdest.
  - simpl in Hfind1.
    assert (Hji : j <> i).
    { intros ->. apply list_find_Some in Hdest as (Hj & [Hdn Hdl] & _).
      assert (dest = src) as -> by congruence. apply Hdiff. congruence. }
    rewrite decide_False in Hfind1 by done.
    unfold ensureEntry. rewrite Hfind1.
    apply list_find_Some in Hfind1 as (Hj1 & _ & _).
    rewrite (totalElectrons_alter _ _ _ _ Hj1). simpl. lia.
  - simpl in Hfind1. destruct Hroom as (k & template & Htemplate & Hcap).
    destruct (ensureEntry_created config1 tn tl k template Hfind1 Htemplate)
      as (i' & Hi' & ->).
    rewrite (totalElectrons_alter _ _ _ _ (spliceIn_lookup _ _ _ Hi')).
    rewrite totalElectrons_spliceIn. simpl. lia.
Qed.

Lemma move_conserves_total_witness :
  totalElectrons
    (applyOp (fill ORBITAL_ORDER 57 [])
             (mkOp (Some (mkTransfer 4 "f" 1)) (Some (mkTransfer 5 "d" 1))))
  = totalElectrons (fill ORBITAL_ORDER 57 []).
Proof.
  apply (move_conserves_total (fill ORBITAL_ORDER 57 []) 4 "f" 5 "d" 1
           12%nat (mkEntry 4 "f" 14 1)).
  - lia.
  - vm_compute. reflexivity.
  - simpl. lia.
  - discriminate.
  - exists 13%nat, (mkOrbital 5 "d" 10). split; [vm_compute; reflexivity|simpl; lia].
Defined.

(** *** Valence electrons *)






(** *** The occupation summary *)

Definition keyOf (c : Entry) : string := subshellKey (entry_n c) (entry_l c).

Lemma entry_eta c :
  mkEntry (entry_n c) (entry_l c) (entry_capacity c) (entry_electrons c) = c.
Proof. by destruct c. Qed.

Lemma mapSet_fresh {V} (m : list (string * V)) key value :
  key ∉ m.*1 -> mapSet m key value = m ++ [(key, value)].
Proof.
  intros Hfresh. unfold mapSet.
  destruct (list_find (fun p => p.1 = key) m) as [[i p]|] eqn:E; [|done].
  apply list_find_Some in E as (Hi & Hp & _).
  exfalso. apply Hfresh. apply list_elem_of_fmap. exists p.
  split; [done|by eapply list_elem_of_lookup_2].
Qed.

Lemma summary_distinct config : forall m,
  NoDup (m.*1 ++ (keyOf <$> config)) ->
  foldl (fun summary c =>
           mapSet summary (subshellKey (entry_n c) (entry_l c))
                  (mkEntry (entry_n c) (entry_l c) (entry_capacity c) (entry_electrons c)))
        m config
  = m ++ ((fun c => (keyOf c, c)) <$> config).
Proof.
  induction config as [|c config IH]; intros m Hnodup; simpl.
  - by rewrite app_nil_r.
  - rewrite fmap_cons in Hnodup.
    apply NoDup_app in Hnodup as (Hm & Hdisj & Hcfg).
    apply NoDup_cons in Hcfg as [Hc Hcfg].
    rewrite mapSet_fresh.
    + rewrite entry_eta. rewrite IH; [by rewrite <- app_assoc|].
      rewrite fmap_app. simpl. rewrite <- app_assoc. simpl.
      apply NoDup_app. split_and!; [done| |by apply NoDup_cons].
      exact Hdisj.
    + intros Hin. apply (Hdisj _ Hin). by left.
Qed.

Lemma sorted_keys_distinct config ks :
  Forall2 hasIndex config ks -> StronglySorted lt ks -> NoDup (keyOf <$> config).
Proof.
  intros Hidx. induction Hidx as [|c k config ks Hc Hrest IH]; intros Hs.
  - constructor.
  - apply StronglySorted_cons in Hs as [Hall Hs].
    rewrite fmap_cons. apply NoDup_cons. split; [|by apply IH].
    intros Hin. apply list_elem_of_fmap in Hin as (c' & Hkey & Hc').
    apply list_elem_of_lookup in Hc' as [i Hi].
    destruct (Forall2_lookup_l _ _ _ _ _ Hrest Hi) as (k' & Hk' & Hc'k).
    rewrite Forall_forall in Hall.
    assert (k < k')%nat by (apply Hall; by eapply list_elem_of_lookup_2).
    unfold hasIndex, orderIndexOf in Hc, Hc'k. unfold keyOf in Hkey.
    rewrite Hkey in Hc. rewrite Hc in Hc'k. injection Hc'k as ->. lia.
Qed.

(** On a configuration whose shell numbers are safe integers and whose
    records have distinct keys the summary is the configuration itself; this
    is the case of every configuration the builder returns. *)
Theorem summary_of_distinct_keys (config : list Entry) (atomicNumber : Z) :
  (Forall (fun c => isSafeInteger (entry_n c)) config ->
   NoDup (keyOf <$> config) -> summarizeShellOccupation config = config) /\
  summarizeShellOccupation (buildElectronConfiguration atomicNumber)
    = buildElectronConfiguration atomicNumber.
Proof.
  assert (Hdistinct : forall cfg,
            NoDup (keyOf <$> cfg) -> summarizeShellOccupation cfg = cfg).
  { intros cfg Hnodup. unfold summarizeShellOccupation.
    rewrite summary_distinct by done. simpl.
    rewrite <- list_fmap_compose. apply list_fmap_id. }
  split; [intros _; apply Hdistinct|].
  destruct (decide (atomicNumber <= 0)) as [Hneg|Hpos].
  - unfold buildElectronConfiguration, applyExceptions.
    rewrite no_exception_outside by lia. by rewrite fill_nothing.
  - apply Hdistinct.
    destruct (build_sorted atomicNumber) as (ks & Hks & Hsorted); [lia|].
    apply mapM_Some in Hks. by eapply sorted_keys_distinct.
Qed.

Lemma summary_of_distinct_keys_witness :
  Forall (fun c => isSafeInteger (entry_n c))
         [mkEntry 3 "d" 10 5; mkEntry 4 "s" 2 1] /\
  NoDup (keyOf <$> [mkEntry 3 "d" 10 5; mkEntry 4 "s" 2 1]) /\
  summarizeShellOccupation [mkEntry 3 "d" 10 5; mkEntry 4 "s" 2 1]
    = [mkEntry 3 "d" 10 5; mkEntry 4 "s" 2 1].
Proof.
  assert (Hsafe : Forall (fun c => isSafeInteger (entry_n c))
                         [mkEntry 3 "d" 10 5; mkEntry 4 "s" 2 1]).
  { repeat constructor; simpl; lia. }
  assert (Hnodup : NoDup (keyOf <$> [mkEntry 3 "d" 10 5; mkEntry 4 "s" 2 1])).
  { apply (bool_decide_unpack _). vm_compute. exact I. }
  split; [exact Hsafe|]. split; [exact Hnodup|].
  destruct (summary_of_distinct_keys [mkEntry 3 "d" 10 5; mkEntry 4 "s" 2 1] 1)
    as [Hsame _].
  exact (Hsame Hsafe Hnodup).
Defined.

(** The map [summarizeShellOccupation] builds. *)
Definition summaryMap (config : list Entry) : list (string * Entry) :=
  foldl (fun summary c =>
           mapSet summary (subshellKey (entry_n c) (entry_l c))
                  (mkEntry (entry_n c) (entry_l c) (entry_capacity c) (entry_electrons c)))
        [] config.

Lemma summaryMap_snoc config c :
  summaryMap (config ++ [c]) = mapSet (summaryMap config) (keyOf c) c.
Proof. unfold summaryMap. by rewrite foldl_snoc, entry_eta. Qed.

Lemma mapSet_keys {V} (m : list (string * V)) key value :
  (mapSet m key value).*1 = if decide (key ∈ m.*1) then m.*1 else m.*1 ++ [key].
Proof.
  unfold mapSet.
  destruct (list_find (fun p => p.1 = key) m) as [[i p]|] eqn:E.
  - apply list_find_Some in E as (Hi & Hp & _).
    rewrite decide_True.
    + rewrite list_fmap_insert. simpl. apply list_insert_id.
      rewrite list_lookup_fmap, Hi. simpl. by rewrite Hp.
    + apply list_elem_of_fmap. exists p. split; [done|by eapply list_elem_of_lookup_2].
  - apply list_find_None in E. rewrite Forall_forall in E.
    rewrite decide_False; [by rewrite fmap_app|].
    intros Hin. apply list_elem_of_fmap in Hin as (p & -> & Hp). by apply (E p).
Qed.

Lemma mapSet_new {V} (m : list (string * V)) key value :
  (key, value) ∈ mapSet m key value.
Proof.
  unfold mapSet.
  destruct (list_find (fun p => p.1 = key) m) as [[i p]|] eqn:E.
  - apply list_find_Some in E as (Hi & _ & _).
    apply list_elem_of_insert. by eapply lookup_lt_Some.
  - apply elem_of_app. right. by left.
Qed.

Lemma mapSet_other {V} (m : list (string * V)) key value p :
  p ∈ m -> p.1 <> key -> p ∈ mapSet m key value.
Proof.
  intros Hp Hne. unfold mapSet.
  destruct (list_find (fun q => q.1 = key) m) as [[i q]|] eqn:E.
  - apply list_find_Some in E as (Hi & Hq & _).
    apply list_elem_of_lookup in Hp as [j Hj].
    apply list_elem_of_lookup. exists j.
    rewrite list_lookup_insert_ne; [done|].
    intros ->. congruence.
  - apply elem_of_app. by left.
Qed.

Lemma mapSet_inv {V} (m : list (string * V)) key value p :
  p ∈ mapSet m key value -> p = (key, value) \/ p ∈ m.
Proof.
  unfold mapSet.
  destruct (list_find (fun q => q.1 = key) m) as [[i q]|] eqn:E.
  - intros Hp. apply list_elem_of_lookup in Hp as [j Hj].
    destruct (decide (i = j)) as [->|Hne].
    + apply list_find_Some in E as (Hi & _ & _).
      rewrite list_lookup_insert_eq in Hj by (by eapply lookup_lt_Some).
      left. congruence.
    + rewrite list_lookup_insert_ne in Hj by done.
      right. by eapply list_elem_of_lookup_2.
  - intros Hp. apply elem_of_app in Hp as [Hp|Hp]; [by right|].
    apply list_elem_of_singleton in Hp. by left.
Qed.

Lemma summaryMap_invariant config :
  NoDup (summaryMap config).*1 /\
  Forall (fun p => p.1 = keyOf p.2 /\ p.2 ∈ config) (summaryMap config) /\
  (forall c, c ∈ config -> keyOf c ∈ (summaryMap config).*1) /\
  (forall pre c post, config = pre ++ c :: post ->
     keyOf c ∉ keyOf <$> post -> (keyOf c, c) ∈ summaryMap config).
Proof.
  induction config as [|c0 config IH] using rev_ind.
  - split_and!; [constructor|constructor|intros c Hc; by apply elem_of_nil in Hc|].
    intros [|? ?] c post Heq; discriminate Heq.
  - destruct IH as (Hnodup & Hwf & Hkeys & Hlast).
    rewrite summaryMap_snoc. split_and!.
    + rewrite mapSet_keys. case_decide as Hin; [done|].
      apply NoDup_app. split_and!; [done| |apply NoDup_singleton].
      intros k Hk Hk'. apply list_elem_of_singleton in Hk'. by subst.
    + apply Forall_forall. intros p Hp. apply mapSet_inv in Hp as [->|Hp].
      * simpl. split; [done|]. apply elem_of_app. right. by left.
      * rewrite Forall_forall in Hwf. destruct (Hwf p Hp) as [Hk Hv].
        split; [done|]. apply elem_of_app. by left.
    + intros c Hc. rewrite mapSet_keys. apply elem_of_app in Hc as [Hc|Hc].
      * case_decide; [by apply Hkeys|]. apply elem_of_app. left. by apply Hkeys.
      * apply list_elem_of_singleton in Hc as ->.
        case_decide; [done|]. apply elem_of_app. right. by left.
    + intros pre c post Heq Hfresh.
      destruct post as [|c1 post _] using rev_ind.
      * apply app_inj_tail in Heq as [_ ->]. apply mapSet_new.
      * rewrite app_comm_cons, app_assoc in Heq.
        apply app_inj_tail in Heq as [-> ->].
        rewrite fmap_app in Hfresh. apply not_elem_of_app in Hfresh as [Hpost Hc1].
        apply mapSet_other.
        -- by eapply Hlast.
        -- simpl. intros Heq. apply Hc1. rewrite Heq. by left.
Qed.

(** In general, for shell numbers that are safe integers, the summary has
    one record for each key of the configuration: its keys are distinct,
    every record of it is a record of the configuration, every key of the
    configuration is a key of it, and for a key that occurs several times it
    is the last record with that key that is kept. *)
Theorem summary_keeps_last_record (config : list Entry) :
  Forall (fun c => isSafeInteger (entry_n c)) config ->
  NoDup (keyOf <$> summarizeShellOccupation config) /\
  (forall c, c ∈ summarizeShellOccupation config -> c ∈ config) /\
  (forall c, c ∈ config -> keyOf c ∈ keyOf <$> summarizeShellOccupation config) /\
  (forall pre c post, config = pre ++ c :: post ->
     keyOf c ∉ keyOf <$> post -> c ∈ summarizeShellOccupation config).
Proof.
  intros _.
  destruct (summaryMap_invariant config) as (Hnodup & Hwf & Hkeys & Hlast).
  change (summarizeShellOccupation config) with ((summaryMap config).*2).
  assert (Hk : keyOf <$> (summaryMap config).*2 = (summaryMap config).*1).
  { rewrite <- list_fmap_compose. apply Forall_fmap_ext_1.
    eapply Forall_impl; [exact Hwf|]. simpl. by intros p [-> _]. }
  rewrite Hk. split_and!.
  - done.
  - intros c Hc. apply list_elem_of_fmap in Hc as (p & -> & Hp).
    rewrite Forall_forall in Hwf. by apply (Hwf p).
  - exact Hkeys.
  - intros pre c post Heq Hfresh. apply list_elem_of_fmap.
    exists (keyOf c, c). split; [done|]. by eapply Hlast.
Qed.

Lemma summary_keeps_last_record_witness :
  mkEntry 1 "s" 2 2 ∈ summarizeShellOccupation [mkEntry 1 "s" 2 1; mkEntry 1 "s" 2 2].
Proof.
  destruct (summary_keeps_last_record [mkEntry 1 "s" 2 1; mkEntry 1 "s" 2 2])
    as (_ & _ & _ & Hlast).
  - repeat constructor; simpl; lia.
  - apply (Hlast [mkEntry 1 "s" 2 1] (mkEntry 1 "s" 2 2) []).
    + reflexivity.
    + apply not_elem_of_nil.
Defined.

(** *** Invariants of the exception pass *)

Lemma ensureEntry_cases config n l :
  (exists i c, list_find (isSubshell n l) config = Some (i, c) /\
     ensureEntry config n l = (config, Some i)) \/
  (exists k template,
     list_find (isSubshell n l) config = None /\
     list_find (isOrbital n l) ORBITAL_ORDER = Some (k, template) /\
     ensureEntry config n l =
       (spliceIn (insertionPoint k config)
                 (mkEntry n l (orbital_capacity template) 0) config,
        Some (insertionPoint k config))) \/
  ensureEntry config n l = (config, None).
Proof.
  unfold ensureEntry.
  destruct (list_find (isSubshell n l) config) as [[i c]|] eqn:Hfind.
  - left. by exists i, c.
  - destruct (list_find (isOrbital n l) ORBITAL_ORDER) as [[k template]|] eqn:Ht.
    + right. left. exists k, template.
      by rewrite (template_index _ _ _ _ Ht).
    + by right; right.
Qed.

Lemma spliceIn_sorted config n l k template :
  sortedByFillingOrder config ->
  list_find (isSubshell n l) config = None ->
  list_find (isOrbital n l) ORBITAL_ORDER = Some (k, template) ->
  sortedByFillingOrder
    (spliceIn (insertionPoint k config)
              (mkEntry n l (orbital_capacity template) 0) config).
Proof.
  intros (ks & Hks & Hsorted) Habsent Htemplate.
  pose proof (template_index _ _ _ _ Htemplate) as Hk.
  apply mapM_Some in Hks. fold hasIndex in Hks.
  pose proof (absent_subshell_index _ _ _ _ _ Hks Habsent Hk) as Hfresh.
  destruct (insertionPoint_split k config ks Hks Hsorted Hfresh)
    as (Hlen & Hbelow & Habove).
  exists (take (insertionPoint k config) ks ++ k :: drop (insertionPoint k config) ks).
  split.
  - apply mapM_Some. apply Forall2_app; [by apply Forall2_take|].
    constructor; [exact Hk|by apply Forall2_drop].
  - rewrite <- (take_drop (insertionPoint k config) ks) in Hsorted.
    apply StronglySorted_app in Hsorted as (Hcross & Hs1 & Hs2).
    apply StronglySorted_app_2; [|done|].
    + intros x1 x2 Hx1 Hx2. apply elem_of_cons in Hx2 as [->|Hx2].
      * rewrite Forall_forall in Hbelow. by apply Hbelow.
      * by apply Hcross.
    + by apply StronglySorted_cons.
Qed.

Lemma sorted_setElectrons (g : Entry -> Z) i config :
  sortedByFillingOrder config ->
  sortedByFillingOrder (alter (fun c => setElectrons (g c) c) i config).
Proof.
  intros (ks & Hks & Hsorted). exists ks. split; [|done].
  apply mapM_Some in Hks. apply mapM_Some.
  apply Forall2_alter_l; [done|]. by intros c k _ _ Hc.
Qed.

Lemma sorted_filter (P : Entry -> Prop) `{forall c, Decision (P c)} config :
  sortedByFillingOrder config -> sortedByFillingOrder (filter P config).
Proof.
  intros (ks & Hks & Hsorted). apply mapM_Some in Hks.
  assert (Hgoal : exists ks', Forall2 (fun c k => orderIndexOf c = Some k)
                                (filter P config) ks' /\
                    StronglySorted lt ks' /\ ks' ⊆ ks).
  { clear -Hks Hsorted.
    induction Hks as [|c k config ks Hc Hrest IH].
    - exists []. split_and!; [constructor|constructor|done].
    - apply StronglySorted_cons in Hsorted as [Hall Hs].
      destruct (IH Hs) as (ks' & Hks' & Hs' & Hsub).
      rewrite filter_cons. case_decide.
      + exists (k :: ks'). split_and!.
        * by constructor.
        * apply StronglySorted_cons. split; [|done].
          rewrite Forall_forall in Hall. apply Forall_forall.
          intros x Hx. apply Hall. by apply Hsub.
        * intros x Hx. apply elem_of_cons in Hx as [->|Hx]; [by left|].
          right. by apply Hsub.
      + exists ks'. split_and!; [done|done|].
        intros x Hx. right. by apply Hsub. }
  destruct Hgoal as (ks' & Hks' & Hs' & _).
  exists ks'. split; [by apply mapM_Some|done].
Qed.

(** Filling order is an invariant of the exception pass: whatever the rule,
    applying it to an array sorted by filling order leaves a sorted array,
    and so do the pruning loop and [applyExceptions] as a whole. *)
Theorem exceptions_preserve_filling_order
    (config : list Entry) (op : Op) (atomicNumber : Z) :
  sortedByFillingOrder config ->
  sortedByFillingOrder (applyOp config op) /\
  sortedByFillingOrder (prune config) /\
  sortedByFillingOrder (applyExceptions config atomicNumber).
Proof.
  assert (Hop : forall cfg o,
            sortedByFillingOrder cfg -> sortedByFillingOrder (applyOp cfg o)).
  { intros cfg [from to] Hsorted. unfold applyOp. cbn [op_from op_to].
    assert (Hfrom : sortedByFillingOrder (applyFrom cfg from)).
    { unfold applyFrom. destruct from as [f|]; [|done].
      destruct (list_find _ cfg) as [[i c]|]; [|done].
      by apply (sorted_setElectrons
                  (fun target => Z.max 0 (entry_electrons target - transfer_count f))). }
    unfold applyTo. destruct to as [t|]; [|done].
    destruct (ensureEntry_cases (applyFrom cfg from) (transfer_n t) (transfer_l t))
      as [(i & c & _ & ->)|[(k & template & Hnone & Htemplate & ->)| ->]].
    - by apply (sorted_setElectrons
                  (fun dest => Z.min (entry_capacity dest)
                                     (entry_electrons dest + transfer_count t))).
    - apply (sorted_setElectrons
               (fun dest => Z.min (entry_capacity dest)
                                  (entry_electrons dest + transfer_count t))).
      by apply (spliceIn_sorted _ _ _ k template).
    - done. }
  assert (Hprune : forall cfg,
            sortedByFillingOrder cfg -> sortedByFillingOrder (prune cfg)).
  { intros cfg Hsorted. unfold prune. rewrite pruneFrom_filter by done.
    rewrite firstn_all, drop_all, app_nil_r. by apply sorted_filter. }
  intros Hsorted. split_and!; [by apply Hop|by apply Hprune|].
  unfold applyExceptions.
  destruct (EXCEPTION_ADJUSTMENTS !! atomicNumber) as [ops|]; [|done].
  apply Hprune. clear -Hop Hsorted.
  revert config Hsorted. induction ops as [|op ops IH]; intros config Hsorted; [done|].
  simpl. apply IH. by apply Hop.
Qed.

Lemma exceptions_preserve_filling_order_witness :
  sortedByFillingOrder (fill ORBITAL_ORDER 57 []) /\
  sortedByFillingOrder (applyExceptions (fill ORBITAL_ORDER 57 []) 57).
Proof.
  assert (Hsorted : sortedByFillingOrder (fill ORBITAL_ORDER 57 [])).
  { apply (bool_decide_unpack _). vm_compute. exact I. }
  split; [exact Hsorted|].
  destruct (exceptions_preserve_filling_order (fill ORBITAL_ORDER 57 [])
              (mkOp None None) 57 Hsorted) as (_ & _ & Hpass).
  exact Hpass.
Defined.

Definition withinCapacity (c : Entry) : Prop :=
  0 <= entry_electrons c <= entry_capacity c.

#[global] Instance withinCapacity_dec c : Decision (withinCapacity c).
Proof. unfold withinCapacity. apply _. Defined.

(** A rule whose counts are not negative. *)
Definition countsNonnegative (op : Op) : Prop :=
  (forall f, op_from op = Some f -> 0 <= transfer_count f) /\
  (forall t, op_to op = Some t -> 0 <= transfer_count t).

Lemma table_counts_nonnegative a ops :
  EXCEPTION_ADJUSTMENTS !! a = Some ops -> Forall countsNonnegative ops.
Proof.
  intros H. apply elem_of_list_to_map_2 in H.
  repeat (apply elem_of_cons in H as [H|H];
    [ injection H as _ ->; repeat constructor; simpl; intros ? [= <-]; simpl; lia |]).
  by apply elem_of_nil in H.
Qed.

Lemma applyOp_withinCapacity config op :
  countsNonnegative op ->
  Forall withinCapacity config -> Forall withinCapacity (applyOp config op).
Proof.
  destruct op as [from to]. intros [Hf Ht] Hcfg. simpl in Hf, Ht.
  unfold applyOp. cbn [op_from op_to].
  assert (Hfrom : Forall withinCapacity (applyFrom config from)).
  { unfold applyFrom. destruct from as [f|]; [|done].
    specialize (Hf f eq_refl).
    destruct (list_find _ config) as [[i c]|]; [|done].
    apply Forall_alter; [done|]. unfold withinCapacity. simpl. intros; lia. }
  unfold applyTo. destruct to as [t|]; [|done].
  specialize (Ht t eq_refl).
  destruct (ensureEntry_cases (applyFrom config from) (transfer_n t) (transfer_l t))
    as [(i & c & _ & ->)|[(k & template & Hnone & Htemplate & ->)| ->]].
  - apply Forall_alter; [done|]. unfold withinCapacity. simpl. intros; lia.
  - apply Forall_alter.
    + unfold spliceIn. apply Forall_app. split; [by apply Forall_take|].
      constructor; [|by apply Forall_drop].
      unfold withinCapacity. simpl.
      apply list_find_Some in Htemplate as (Hk & _ & _).
      pose proof capacities_positive as Hcaps. rewrite Forall_forall in Hcaps.
      assert (0 < orbital_capacity template)
        by (apply Hcaps; by eapply list_elem_of_lookup_2).
      lia.
    + unfold withinCapacity. simpl. intros; lia.
  - done.
Qed.

(** The clamps keep every record within its capacity: applied to an array
    whose records hold between 0 electrons and their capacity, a rule with
    non-negative counts leaves such an array, and so does [applyExceptions]
    with the rules of the table; when the atomic number has rules, every
    record that is left holds at least one electron. *)
Theorem exceptions_keep_records_within_capacity
    (config : list Entry) (op : Op) (atomicNumber : Z) :
  Forall withinCapacity config ->
  (countsNonnegative op -> Forall withinCapacity (applyOp config op)) /\
  Forall withinCapacity (applyExceptions config atomicNumber) /\
  (is_Some (EXCEPTION_ADJUSTMENTS !! atomicNumber) ->
   Forall (fun c => 0 < entry_electrons c <= entry_capacity c)
          (applyExceptions config atomicNumber)).
Proof.
  intros Hcfg.
  split; [intros Hop; by apply applyOp_withinCapacity|].
  unfold applyExceptions.
  destruct (EXCEPTION_ADJUSTMENTS !! atomicNumber) as [ops|] eqn:Hrules.
  - apply table_counts_nonnegative in Hrules.
    assert (Hmoved : Forall withinCapacity (foldl applyOp config ops)).
    { clear -Hrules Hcfg. revert config Hcfg.
      induction Hrules as [|op ops Hop Hops IH]; intros config Hcfg; [done|].
      simpl. apply IH. by apply applyOp_withinCapacity. }
    unfold prune. rewrite pruneFrom_filter by done.
    rewrite firstn_all, drop_all, app_nil_r.
    split.
    + apply Forall_forall. intros c Hc.
      apply list_elem_of_filter in Hc as [_ Hin].
      rewrite Forall_forall in Hmoved. by apply Hmoved.
    + intros _. apply Forall_forall. intros c Hc.
      apply list_elem_of_filter in Hc as [Hpos Hin].
      rewrite Forall_forall in Hmoved. specialize (Hmoved c Hin).
      unfold withinCapacity in Hmoved. lia.
  - split; [done|]. intros [? [=]].
Qed.

Lemma exceptions_keep_records_within_capacity_witness :
  Forall withinCapacity (fill ORBITAL_ORDER 46 []) /\
  Forall (fun c => 0 < entry_electrons c <= entry_capacity c)
         (applyExceptions (fill ORBITAL_ORDER 46 []) 46).
Proof.
  assert (Hcfg : Forall withinCapacity (fill ORBITAL_ORDER 46 [])).
  { apply (bool_decide_unpack _). vm_compute. exact I. }
  split; [exact Hcfg|].
  destruct (exceptions_keep_records_within_capacity (fill ORBITAL_ORDER 46 [])
              (mkOp None None) 46 Hcfg) as (_ & _ & Hpass).
  apply Hpass. vm_compute. eexists. reflexivity.
Defined.

End ElectronConfigExtras.

(** ** Further properties of the angular field model *)

Module OrbitalsExtras.

Import Orbitals OrbitalsProofs.
Open Scope R_scope.

(** *** Cartesian form of the amplitude *)

Lemma sqrt_sq_abs a : sqrt (a * a) = Rabs a.
Proof. apply (sqrt_Rsqr_abs a). Qed.

(** The polar sine and the azimuth recover the two equatorial components. *)
Lemma polar_decomposition (x z : R) :
  sqrt (x * x + z * z) * cos (Math_atan2 z x) = x /\
  sqrt (x * x + z * z) * sin (Math_atan2 z x) = z.
Proof.
  set (rho := sqrt (x * x + z * z)).
  assert (Hsq : 0 <= x * x + z * z) by nra.
  assert (Hrho : rho * rho = x * x + z * z) by (apply sqrt_def; lra).
  assert (Hrho0 : 0 <= rho) by apply sqrt_pos.
  assert (Hatan : x <> 0 ->
            cos (atan (z / x)) = Rabs x / rho /\
            sin (atan (z / x)) = z / x * (Rabs x / rho) /\ 0 < rho).
  { intros Hx.
    assert (Hpos : 0 < rho).
    { destruct (Req_dec rho 0) as [H0|H0]; [|lra]. rewrite H0 in Hrho. nra. }
    assert (Habs : 0 < Rabs x) by (by apply Rabs_pos_lt).
    assert (Habs2 : Rabs x * Rabs x = x * x).
    { unfold Rabs. destruct (Rcase_abs x); lra. }
    assert (Hroot : sqrt (1 + (z / x)²) = rho / Rabs x).
    { apply sqrt_lem_1.
      - unfold Rsqr. nra.
      - apply Rlt_le, Rdiv_lt_0_compat; lra.
      - unfold Rsqr.
        replace (rho / Rabs x * (rho / Rabs x))
          with ((rho * rho) / (Rabs x * Rabs x)) by (field; lra).
        rewrite Hrho, Habs2. field. lra. }
    rewrite cos_atan, sin_atan, Hroot. split_and!; [|field; lra|done].
    field. lra. }
  unfold Math_atan2.
  destruct (Rlt_dec 0 x) as [Hx|Hx].
  - destruct Hatan as (Hc & Hs & Hpos); [lra|].
    rewrite Hc, Hs, Rabs_right by lra. split; field; lra.
  - destruct (Rlt_dec x 0) as [Hx'|Hx'].
    + destruct Hatan as (Hc & Hs & Hpos); [lra|].
      destruct (Rle_dec 0 z).
      * rewrite neg_cos, neg_sin, Hc, Hs, Rabs_left by lra. split; field; lra.
      * replace (atan (z / x) - PI) with (- (- atan (z / x) + PI)) by lra.
        rewrite cos_neg, sin_neg, neg_cos, neg_sin, cos_neg, sin_neg.
        rewrite Hc, Hs, Rabs_left by lra. split; field; lra.
    + assert (x = 0) as Hzero by lra.
      assert (Hrz : rho = Rabs z).
      { unfold rho. rewrite Hzero. replace (0 * 0 + z * z) with (z * z) by lra.
        apply sqrt_sq_abs. }
      destruct (Rlt_dec 0 z).
      * rewrite cos_PI2, sin_PI2, Hrz, Rabs_right by lra. lra.
      * destruct (Rlt_dec z 0).
        -- rewrite cos_neg, sin_neg, cos_PI2, sin_PI2, Hrz, Rabs_left by lra. lra.
        -- assert (z = 0) by lra. subst z. rewrite Hrz, Rabs_R0. lra.
Qed.

(** The sixteen amplitudes as polynomials in the components of the
    direction. *)
Definition cartesianForms (x y z : R) : list (string * string * R) :=
  [ ("s", "s", 1);
    ("p", "px", x);
    ("p", "py", z);
    ("p", "pz", y);
    ("d", "dz2", 0.5 * (3 * y * y - 1));
    ("d", "dxz", x * y);
    ("d", "dyz", z * y);
    ("d", "dxy", 2 * x * z);
    ("d", "dx2y2", x * x - z * z);
    ("f", "fz3", 0.5 * y * (5 * y * y - 3));
    ("f", "fxz2", 0.5 * x * (5 * y * y - 1));
    ("f", "fyz2", 0.5 * z * (5 * y * y - 1));
    ("f", "fzx2y2", y * (x * x - z * z));
    ("f", "fxyz", 2 * x * y * z);
    ("f", "fcos3", x * x * x - 3 * x * z * z);
    ("f", "fsin3", 3 * x * x * z - z * z * z) ]%string.

Lemma cartesian_forms dir :
  isUnit dir ->
  Forall (fun e => evaluateOrbitalAmplitude e.1.1 e.1.2 dir = e.2)
         (cartesianForms (vx dir) (vy dir) (vz dir)).
Proof.
  destruct dir as [x y z]. unfold isUnit. simpl. intros Hunit.
  destruct (polar_decomposition x z) as [Hx Hz].
  assert (Hsin : sqrt (Rmax 0 (1 - y / 1 * (y / 1))) = sqrt (x * x + z * z)).
  { f_equal. rewrite Rdiv_1_r. rewrite Rmax_right; nra. }
  set (phi := Math_atan2 z x) in *.
  assert (H3c : cos (3 * phi)
            = cos phi * cos phi * cos phi - 3 * sin phi * sin phi * cos phi).
  { replace (3 * phi) with (2 * phi + phi) by lra.
    rewrite cos_plus, cos_2a, sin_2a. ring. }
  assert (H3s : sin (3 * phi)
            = 3 * cos phi * cos phi * sin phi - sin phi * sin phi * sin phi).
  { replace (3 * phi) with (2 * phi + phi) by lra.
    rewrite sin_plus, cos_2a, sin_2a. ring. }
  unfold cartesianForms.
  repeat constructor; unfold evaluateOrbitalAmplitude; simpl;
    fold phi; rewrite ?Hsin, ?H3c, ?H3s, ?sin_2a, ?cos_2a, ?Rdiv_1_r;
    set (rho := sqrt (x * x + z * z)) in *;
    set (c := cos phi) in *; set (s := sin phi) in *;
    clearbody rho c s; clear Hsin H3c H3s; subst x z; ring.
Qed.

(** For a unit direction each amplitude of the closed set is the polynomial
    of [cartesianForms] in the components of the direction.  The polar axis
    is the y axis: the px amplitude is x, the py amplitude is z and the pz
    amplitude is y. *)
Theorem amplitude_cartesian (dir : Vector3) :
  isUnit dir ->
  Forall (fun e => evaluateOrbitalAmplitude e.1.1 e.1.2 dir = e.2)
         (cartesianForms (vx dir) (vy dir) (vz dir)) /\
  (cartesianForms (vx dir) (vy dir) (vz dir)).*1 = enumerated.
Proof. intros Hunit. split; [by apply cartesian_forms|reflexivity]. Qed.

Lemma amplitude_cartesian_witness :
  isUnit (mkVector3 0 0 1) /\
  Forall (fun e => evaluateOrbitalAmplitude e.1.1 e.1.2 (mkVector3 0 0 1) = e.2)
         (cartesianForms 0 0 1).
Proof.
  assert (Hunit : isUnit (mkVector3 0 0 1)) by (unfold isUnit; simpl; lra).
  split; [exact Hunit|].
  destruct (amplitude_cartesian (mkVector3 0 0 1) Hunit) as [Hforms _].
  exact Hforms.
Defined.

(** *** Nodal cones *)

Lemma cone_cosine c : 0 <= c <= 1 -> cos (acos (clamp c (-1) 1)) = c.
Proof.
  intros Hc. unfold clamp.
  rewrite Rmin_right by lra. rewrite Rmax_right by lra.
  apply cos_acos. lra.
Qed.

Lemma cone_values :
  (0 <= 1 / sqrt 3 <= 1 /\ 1 / sqrt 3 * (1 / sqrt 3) = 1 / 3) /\
  (0 <= sqrt (3 / 5) <= 1 /\ sqrt (3 / 5) * sqrt (3 / 5) = 3 / 5) /\
  (0 <= 1 / sqrt 5 <= 1 /\ 1 / sqrt 5 * (1 / sqrt 5) = 1 / 5).
Proof.
  assert (H3 : sqrt 3 * sqrt 3 = 3) by (apply sqrt_def; lra).
  assert (H5 : sqrt 5 * sqrt 5 = 5) by (apply sqrt_def; lra).
  assert (H35 : sqrt (3 / 5) * sqrt (3 / 5) = 3 / 5) by (apply sqrt_def; lra).
  pose proof (sqrt_pos 3). pose proof (sqrt_pos 5). pose proof (sqrt_pos (3 / 5)).
  assert (1 <= sqrt 3) by nra. assert (1 <= sqrt 5) by nra.
  assert (Hsq3 : 1 / sqrt 3 * (1 / sqrt 3) = 1 / 3).
  { replace (1 / sqrt 3 * (1 / sqrt 3)) with (1 / (sqrt 3 * sqrt 3)) by (field; lra).
    by rewrite H3. }
  assert (Hsq5 : 1 / sqrt 5 * (1 / sqrt 5) = 1 / 5).
  { replace (1 / sqrt 5 * (1 / sqrt 5)) with (1 / (sqrt 5 * sqrt 5)) by (field; lra).
    by rewrite H5. }
  assert (0 < 1 / sqrt 3) by (apply Rdiv_lt_0_compat; lra).
  assert (0 < 1 / sqrt 5) by (apply Rdiv_lt_0_compat; lra).
  split_and!; try done; nra.
Qed.

(** The angle of a cosine in (0, 1] is below a right angle. *)
Lemma cone_angle_acute c : 0 < c <= 1 -> 0 <= acos c < PI / 2.
Proof.
  intros Hc. pose proof (acos_bound c) as [Hlo Hhi].
  split; [exact Hlo|].
  destruct (Rlt_dec (acos c) (PI / 2)) as [|Hge]; [done|].
  assert (Hcos : cos (acos c) <= 0).
  { apply cos_le_0; pose proof PI_RGT_0; lra. }
  rewrite cos_acos in Hcos by lra. lra.
Qed.

(** The base radius determines the cosine: two cosines in (0, 1] that give
    the same helper at a non-zero size are equal. *)
Lemma createDoubleConeNode_cosine c c0 size :
  size <> 0 -> 0 < c <= 1 -> 0 < c0 <= 1 ->
  createDoubleConeNode c size = createDoubleConeNode c0 size -> c = c0.
Proof.
  intros Hsize Hc Hc0. unfold createDoubleConeNode, clamp.
  rewrite !Rmin_right by lra. rewrite !Rmax_right by lra.
  intros Heq. injection Heq as Hradius _.
  assert (Htan : tan (acos c) = tan (acos c0)).
  { apply (Rmult_eq_reg_r (size * 2.4 / 2)); [exact Hradius|lra]. }
  pose proof (cone_angle_acute c Hc). pose proof (cone_angle_acute c0 Hc0).
  pose proof PI_RGT_0.
  apply tan_inj in Htan; [|lra..].
  rewrite <- (cos_acos c), <- (cos_acos c0) by lra. by rewrite Htan.
Qed.

(** Every double cone helper of a nodal group of the closed set is built
    from a polar cosine at which the amplitude of the variant vanishes: when
    the group holds the helper that [createDoubleConeNode] builds from a
    cosine in (0, 1] at a non-zero size, the amplitude is 0 in every
    direction whose polar cosine (its y component) is that cosine or its
    opposite.  The statement is about the cosine the helper is built from,
    not about the surface of the two meshes. *)
Theorem nodal_cone_cosines_are_zeros
    (cfg : OrbitalConfig) (size : R) (children : list NodeHelper)
    (cosTheta : R) (dir : Vector3) :
  (family cfg, variant cfg) ∈ enumerated ->
  size <> 0 ->
  buildNodalGroup cfg size = Some children ->
  0 < cosTheta <= 1 ->
  createDoubleConeNode cosTheta size ∈ children ->
  vy dir = cosTheta \/ vy dir = - cosTheta ->
  evaluateOrbitalAmplitude (family cfg) (variant cfg) dir = 0.
Proof.
  destruct cfg as [f v b rs p]. simpl. intros Hin Hsize Hgroup Hc Hcone Hy.
  destruct cone_values as ((H3 & H3sq) & (H35 & H35sq) & (H5 & H5sq)).
  assert (Hsq : forall c, 0 <= c <= 1 -> c * c <> 0 ->
                  createDoubleConeNode cosTheta size = createDoubleConeNode c size ->
                  vy dir / 1 * (vy dir / 1) = c * c).
  { intros c Hc0 Hne Heq.
    assert (0 < c <= 1) as Hpos.
    { split; [|lra]. destruct (Req_dec c 0) as [->|]; [|lra]. lra. }
    rewrite <- (createDoubleConeNode_cosine _ _ _ Hsize Hc Hpos Heq).
    rewrite Rdiv_1_r. destruct Hy as [-> | ->]; ring. }
  unfold enumerated, FAMILY_VARIANTS in Hin. simpl in Hin.
  repeat (apply elem_of_cons in Hin as [[= -> ->]|Hin];
    [ unfold buildNodalGroup, nodalChildren, createPlaneNode in Hgroup;
      simpl in Hgroup; try discriminate Hgroup;
      injection Hgroup as <-;
      repeat (apply elem_of_cons in Hcone as [Hcone|Hcone];
              [try discriminate Hcone|]);
      try (by apply elem_of_nil in Hcone);
      unfold evaluateOrbitalAmplitude; simpl |]).
  - specialize (Hsq _ H3 ltac:(lra) Hcone). rewrite H3sq in Hsq.
    assert (E : 3 * (vy dir / 1) * (vy dir / 1) - 1 = 0) by lra.
    rewrite E. ring.
  - specialize (Hsq _ H35 ltac:(lra) Hcone). rewrite H35sq in Hsq.
    assert (E : 5 * (vy dir / 1) * (vy dir / 1) - 3 = 0) by lra.
    rewrite E. ring.
  - specialize (Hsq _ H5 ltac:(lra) Hcone). rewrite H5sq in Hsq.
    assert (E : 5 * (vy dir / 1) * (vy dir / 1) - 1 = 0) by lra.
    rewrite E. ring.
  - specialize (Hsq _ H5 ltac:(lra) Hcone). rewrite H5sq in Hsq.
    assert (E : 5 * (vy dir / 1) * (vy dir / 1) - 1 = 0) by lra.
    rewrite E. ring.
  - by apply elem_of_nil in Hin.
Qed.

Lemma nodal_cone_cosines_are_zeros_witness :
  evaluateOrbitalAmplitude "d" "dz2" (mkVector3 0 (- (1 / sqrt 3)) 0) = 0.
Proof.
  destruct cone_values as ((H3 & H3sq) & _).
  apply (nodal_cone_cosines_are_zeros (mkOrbitalConfig "d" "dz2" 1 1 1) 1
           [createDoubleConeNode (1 / sqrt 3) 1] (1 / sqrt 3)).
  - apply (bool_decide_unpack _). vm_compute. exact I.
  - lra.
  - reflexivity.
  - split; [|lra]. destruct (Req_dec (1 / sqrt 3) 0) as [Hz|]; [|lra].
    rewrite Hz in H3sq. lra.
  - apply list_elem_of_here.
  - right. reflexivity.
Defined.

(** *** Nodal planes *)

Lemma cartesian_lookup f v e dir :
  isUnit dir ->
  (f, v, e) ∈ cartesianForms (vx dir) (vy dir) (vz dir) ->
  evaluateOrbitalAmplitude f v dir = e.
Proof.
  intros Hunit Hin. pose proof (cartesian_forms dir Hunit) as Hall.
  rewrite Forall_forall in Hall. exact (Hall _ Hin).
Qed.

Ltac find_form :=
  unfold cartesianForms;
  repeat first [apply list_elem_of_here | apply list_elem_of_further].

(** [dir] lies in the plane through the origin with normal [n]. *)
Definition inPlane (n dir : Vector3) : Prop :=
  vx n * vx dir + vy n * vy dir + vz n * vz dir = 0.

(** The variants all of whose listed planes lie on zeros of the amplitude,
    and those with a listed plane that does not. *)
Definition planesOnZeros : list (string * string) :=
  [ ("s", "s"); ("p", "px"); ("d", "dz2"); ("d", "dyz"); ("f", "fz3");
    ("f", "fxz2"); ("f", "fxyz") ]%string.

Definition planesOffZeros : list (string * string) :=
  [ ("p", "py"); ("p", "pz"); ("d", "dxz"); ("d", "dxy"); ("d", "dx2y2");
    ("f", "fyz2"); ("f", "fzx2y2"); ("f", "fcos3"); ("f", "fsin3") ]%string.

(** For s, px, dz2, dyz, fz3, fxz2 and fxyz every plane of the nodal group is
    a nodal plane of the amplitude: the amplitude is 0 in every unit
    direction that lies in the plane. *)
Theorem nodal_planes_on_zeros
    (cfg : OrbitalConfig) (size : R) (n dir : Vector3) :
  (family cfg, variant cfg) ∈ planesOnZeros ->
  n ∈ planeNormals (buildNodalGroup cfg size) ->
  isUnit dir ->
  inPlane n dir ->
  evaluateOrbitalAmplitude (family cfg) (variant cfg) dir = 0.
Proof.
  destruct cfg as [f v b rs p]. simpl. intros Hin Hn Hunit Hplane.
  unfold planesOnZeros in Hin. unfold inPlane in Hplane.
  repeat (apply elem_of_cons in Hin as [[= -> ->]|Hin];
    [ revert Hn; nodal_normals; intros Hn;
      repeat (apply elem_of_cons in Hn as [->|Hn];
              [ simpl in Hplane;
                erewrite cartesian_lookup by (done || find_form);
                first [ assert (Hz : vx dir = 0) by lra; rewrite Hz; ring
                      | assert (Hz : vy dir = 0) by lra; rewrite Hz; ring
                      | assert (Hz : vz dir = 0) by lra; rewrite Hz; ring ] |]);
      by apply elem_of_nil in Hn |]).
  by apply elem_of_nil in Hin.
Qed.

Lemma nodal_planes_on_zeros_witness :
  evaluateOrbitalAmplitude "f" "fxz2" (mkVector3 0 0.6 0.8) = 0.
Proof.
  apply (nodal_planes_on_zeros (mkOrbitalConfig "f" "fxz2" 1 1 1) 1
           (normalize (mkVector3 1 0 0)) (mkVector3 0 0.6 0.8)).
  - apply (bool_decide_unpack _). vm_compute. exact I.
  - apply list_elem_of_here.
  - unfold isUnit. simpl. lra.
  - destruct normalize_axes as (-> & _). unfold inPlane. simpl. lra.
Defined.

Lemma plane_off_zero (cfg : OrbitalConfig) size (n dir : Vector3) (e : R) :
  n ∈ planeNormals (buildNodalGroup cfg size) ->
  isUnit dir -> inPlane n dir ->
  (family cfg, variant cfg, e) ∈ cartesianForms (vx dir) (vy dir) (vz dir) ->
  e <> 0 ->
  exists n dir,
    n ∈ planeNormals (buildNodalGroup cfg size) /\
    isUnit dir /\ inPlane n dir /\
    evaluateOrbitalAmplitude (family cfg) (variant cfg) dir <> 0.
Proof.
  intros Hn Hunit Hplane Hform He.
  exists n, dir. split_and!; try done.
  by rewrite (cartesian_lookup _ _ _ _ Hunit Hform).
Qed.

Ltac plane_witness n dir :=
  eapply (plane_off_zero _ _ n dir);
    [ nodal_normals; find_form
    | unfold isUnit; simpl; lra
    | unfold inPlane; simpl; lra
    | simpl; find_form
    | lra ].

(** For py, pz, dxz, dxy, dx2y2, fyz2, fzx2y2, fcos3 and fsin3 some plane of
    the nodal group is not a nodal plane of the amplitude: a unit direction
    in the plane has a non-zero amplitude.  The planes are named after the
    axes x, y, z while the amplitude takes y as its polar axis.  Together
    with the variants of [planesOnZeros] these are the closed set. *)
Theorem nodal_planes_off_zeros (cfg : OrbitalConfig) (size : R) :
  ((family cfg, variant cfg) ∈ planesOffZeros ->
   exists n dir,
     n ∈ planeNormals (buildNodalGroup cfg size) /\
     isUnit dir /\ inPlane n dir /\
     evaluateOrbitalAmplitude (family cfg) (variant cfg) dir <> 0) /\
  planesOnZeros ++ planesOffZeros ≡ₚ enumerated.
Proof.
  split; [|apply (bool_decide_unpack _); vm_compute; exact I].
  intros Hin. destruct cfg as [f v b rs p]. simpl in Hin.
  unfold planesOffZeros in Hin.
  pose proof inv_sqrt2_pos as Hroot.
  apply elem_of_cons in Hin as [[= -> ->]|Hin].
  { plane_witness (mkVector3 0 1 0) (mkVector3 0 0 1). }
  apply elem_of_cons in Hin as [[= -> ->]|Hin].
  { plane_witness (mkVector3 0 0 1) (mkVector3 0 1 0). }
  apply elem_of_cons in Hin as [[= -> ->]|Hin].
  { plane_witness (mkVector3 0 0 1) (mkVector3 0.6 0.8 0). }
  apply elem_of_cons in Hin as [[= -> ->]|Hin].
  { plane_witness (mkVector3 0 1 0) (mkVector3 0.6 0 0.8). }
  apply elem_of_cons in Hin as [[= -> ->]|Hin].
  { plane_witness (mkVector3 (1 / sqrt 2) (1 / sqrt 2) 0) (mkVector3 0 0 1). }
  apply elem_of_cons in Hin as [[= -> ->]|Hin].
  { plane_witness (mkVector3 0 1 0) (mkVector3 0 0 1). }
  apply elem_of_cons in Hin as [[= -> ->]|Hin].
  { plane_witness (mkVector3 0 0 1) (mkVector3 0.6 0.8 0). }
  apply elem_of_cons in Hin as [[= -> ->]|Hin].
  { plane_witness (mkVector3 0 0 1) (mkVector3 1 0 0). }
  apply elem_of_cons in Hin as [[= -> ->]|Hin].
  { plane_witness (mkVector3 1 0 0) (mkVector3 0 0 1). }
  by apply elem_of_nil in Hin.
Qed.

Lemma nodal_planes_off_zeros_witness :
  exists n dir,
    n ∈ planeNormals (buildNodalGroup (mkOrbitalConfig "p" "py" 1 1 1) 1) /\
    isUnit dir /\ inPlane n dir /\
    evaluateOrbitalAmplitude "p" "py" dir <> 0.
Proof.
  apply (nodal_planes_off_zeros (mkOrbitalConfig "p" "py" 1 1 1) 1).
  apply (bool_decide_unpack _). vm_compute. exact I.
Defined.

(** *** The radius field *)

Lemma Rpower_one p : Rpower 1 p = 1.
Proof. unfold Rpower. by rewrite ln_1, Rmult_0_r, exp_0. Qed.

(** [Math.pow] with a positive exponent on a base that is not negative. *)
Lemma Math_pow_defined b p :
  0 <= b -> 0 < p ->
  exists v, Math_pow b p = Some v /\ 0 <= v /\ (b = 0 -> v = 0) /\
            (b <= 1 -> v <= 1) /\ (b = 1 -> v = 1).
Proof.
  intros Hb Hp. unfold Math_pow.
  destruct (Rlt_dec 0 b) as [Hpos|Hzero].
  - exists (Rpower b p). split_and!.
    + done.
    + unfold Rpower. apply Rlt_le, exp_pos.
    + lra.
    + intros Hle. rewrite <- (Rpower_one p). apply Rle_Rpower_l; lra.
    + intros ->. apply Rpower_one.
  - destruct (Req_dec_T b 0) as [_|Hne]; [|lra].
    destruct (Rlt_dec 0 p) as [_|Hn]; [|lra].
    exists 0. split_and!; try done; lra.
Qed.

Lemma Math_pow_monotone b1 b2 p v1 v2 :
  0 <= b1 <= b2 -> 0 < p ->
  Math_pow b1 p = Some v1 -> Math_pow b2 p = Some v2 -> v1 <= v2.
Proof.
  intros Hb Hp H1 H2.
  destruct (Math_pow_defined b2 p) as (v2' & H2' & Hpos2 & _); [lra|done|].
  assert (v2' = v2) as -> by congruence.
  unfold Math_pow in H1, H2.
  destruct (Rlt_dec 0 b1) as [Hpos|Hzero].
  - destruct (Rlt_dec 0 b2) as [_|Hn]; [|lra].
    injection H1 as <-. injection H2 as <-. apply Rle_Rpower_l; lra.
  - destruct (Req_dec_T b1 0) as [_|Hne]; [|lra].
    destruct (Rlt_dec 0 p) as [_|Hn]; [|lra].
    injection H1 as <-. done.
Qed.

(** The shape parameters are in their documented ranges: the base radius and
    the radial scale are not negative, the power is positive. *)
Definition wellShaped (config : OrbitalShape) : Prop :=
  0 <= shape_baseRadius config /\
  0 <= default 0 (shape_radialScale config) /\
  0 < default 1 (shape_power config).

(** For a well-shaped configuration the radius in a unit direction is
    defined and lies between the base radius and the base radius times
    [1 + radialScale]; it is the base radius where the amplitude is 0. *)
Theorem radius_between_core_and_lobe (config : OrbitalShape) (dir : Vector3) :
  wellShaped config ->
  isUnit dir ->
  exists r, evaluateOrbitalRadius config dir = Some r /\
    shape_baseRadius config <= r
      <= shape_baseRadius config * (1 + default 0 (shape_radialScale config)) /\
    (evaluateOrbitalAmplitude (shape_family config) (shape_variant config) dir = 0 ->
     r = shape_baseRadius config).
Proof.
  intros (Hbase & Hscale & Hpower) Hunit.
  pose proof (amplitude_bounded (shape_family config) (shape_variant config) dir Hunit)
    as Hamp.
  set (amp := evaluateOrbitalAmplitude _ _ dir) in *.
  destruct (Math_pow_defined (Rabs amp) (default 1 (shape_power config)))
    as (v & Hv & Hv0 & Hzero & Hle & _); [apply Rabs_pos|done|].
  assert (Hv1 : v <= 1).
  { apply Hle. apply Rabs_le. lra. }
  exists (shape_baseRadius config * (1 + default 0 (shape_radialScale config) * v)).
  unfold evaluateOrbitalRadius. cbv zeta. fold amp. rewrite Hv.
  set (rs := default 0 (shape_radialScale config)) in *.
  set (b := shape_baseRadius config) in *.
  assert (0 <= rs * v) by (apply Rmult_le_pos; lra).
  assert (rs * v <= rs) by nra.
  split_and!; [done|nra|nra|].
  intros Hamp0. rewrite Hamp0, Rabs_R0 in Hzero. rewrite Hzero by done. ring.
Qed.

Lemma radius_between_core_and_lobe_witness :
  exists r, evaluateOrbitalRadius (mkOrbitalShape "p" "pz" 1 (Some 2) None)
              (mkVector3 0 1 0) = Some r /\
    1 <= r <= 1 * (1 + 2).
Proof.
  destruct (radius_between_core_and_lobe
              (mkOrbitalShape "p" "pz" 1 (Some 2) None) (mkVector3 0 1 0))
    as (r & Hr & Hbounds & _).
  - unfold wellShaped. simpl. lra.
  - unfold isUnit. simpl. lra.
  - exists r. split; [exact Hr|exact Hbounds].
Defined.

(** The radius grows with the magnitude of the amplitude: for a well-shaped
    configuration, a direction whose amplitude is at least as large in
    magnitude has a radius at least as large. *)
Theorem radius_monotone_in_amplitude (config : OrbitalShape) (dir1 dir2 : Vector3) :
  wellShaped config ->
  Rabs (evaluateOrbitalAmplitude (shape_family config) (shape_variant config) dir1)
    <= Rabs (evaluateOrbitalAmplitude (shape_family config) (shape_variant config) dir2) ->
  exists r1 r2,
    evaluateOrbitalRadius config dir1 = Some r1 /\
    evaluateOrbitalRadius config dir2 = Some r2 /\
    r1 <= r2.
Proof.
  intros (Hbase & Hscale & Hpower) Hle.
  set (a1 := Rabs (evaluateOrbitalAmplitude _ _ dir1)) in *.
  set (a2 := Rabs (evaluateOrbitalAmplitude _ _ dir2)) in *.
  destruct (Math_pow_defined a1 (default 1 (shape_power config)))
    as (v1 & Hv1 & Hpos1 & _); [apply Rabs_pos|done|].
  destruct (Math_pow_defined a2 (default 1 (shape_power config)))
    as (v2 & Hv2 & Hpos2 & _); [apply Rabs_pos|done|].
  assert (Hmono : v1 <= v2).
  { eapply (Math_pow_monotone a1 a2); [|done|done|done].
    split; [apply Rabs_pos|done]. }
  exists (shape_baseRadius config * (1 + default 0 (shape_radialScale config) * v1)),
         (shape_baseRadius config * (1 + default 0 (shape_radialScale config) * v2)).
  unfold evaluateOrbitalRadius. cbv zeta. fold a1 a2. rewrite Hv1, Hv2.
  set (rs := default 0 (shape_radialScale config)) in *.
  set (b := shape_baseRadius config) in *.
  assert (rs * v1 <= rs * v2) by (apply Rmult_le_compat_l; lra).
  split_and!; [done|done|nra].
Qed.

Lemma radius_monotone_in_amplitude_witness :
  exists r1 r2,
    evaluateOrbitalRadius (mkOrbitalShape "s" "s" 1 (Some 2) None)
      (mkVector3 1 0 0) = Some r1 /\
    evaluateOrbitalRadius (mkOrbitalShape "s" "s" 1 (Some 2) None)
      (mkVector3 0 1 0) = Some r2 /\
    r1 <= r2.
Proof.
  apply (radius_monotone_in_amplitude
           (mkOrbitalShape "s" "s" 1 (Some 2) None)
           (mkVector3 1 0 0) (mkVector3 0 1 0)).
  - unfold wellShaped. simpl. lra.
  - unfold evaluateOrbitalAmplitude. simpl. lra.
Defined.

(** *** The signed distance *)

Lemma signOrOne_cases amp :
  (0 <= amp /\ signOrOne amp = 1) \/ (amp < 0 /\ signOrOne amp = -1).
Proof. unfold signOrOne. destruct (Rlt_dec amp 0); [right|left]; split; lra. Qed.

(** The positions at which the exact length stands for [position.length()]:
    the origin, and the positions whose length lies between 1e-100 and 1e100,
    where the sum of squares neither underflows nor overflows. *)
Definition lengthInRange (position : Vector3) : Prop :=
  vlength position = 0 \/ / 10 ^ 100 <= vlength position <= 10 ^ 100.

(** For a well-shaped configuration the signed distance is defined at the
    origin and at every position whose length lies between 1e-100 and 1e100.
    At the origin it is minus the base radius, with phase 1 and amplitude 1.
    Elsewhere the amplitude is that of the direction of the position, the
    phase is 1 where the amplitude is not negative and -1 where it is
    negative, and the distance is the length of the position minus the radius
    in its direction. *)
Theorem signed_distance_sample (config : OrbitalShape) (position : Vector3) :
  wellShaped config ->
  lengthInRange position ->
  exists s, evaluateOrbitalSDF config position = Some s /\
    (sample_phase s = 1 \/ sample_phase s = -1) /\
    (vlength position = 0 ->
     s = mkFieldSample (- shape_baseRadius config) 1 1) /\
    (vlength position <> 0 ->
     sample_amplitude s
       = evaluateOrbitalAmplitude (shape_family config) (shape_variant config)
                                  (normalize position) /\
     (0 <= sample_amplitude s -> sample_phase s = 1) /\
     (sample_amplitude s < 0 -> sample_phase s = -1) /\
     evaluateOrbitalRadius config (normalize position)
       = Some (vlength position - sample_distance s)).
Proof.
  intros (Hbase & Hscale & Hpower) _.
  unfold evaluateOrbitalSDF, evaluateOrbitalRadius. cbv zeta.
  destruct (Req_dec_T (vlength position) 0) as [Hzero|Hnonzero].
  - eexists. split; [reflexivity|]. simpl. split_and!; [by left|done|done].
  - set (amp := evaluateOrbitalAmplitude _ _ (normalize position)).
    destruct (Math_pow_defined (Rabs amp) (default 1 (shape_power config)))
      as (v & -> & _); [apply Rabs_pos|done|].
    eexists. split; [reflexivity|]. simpl.
    destruct (signOrOne_cases amp) as [[Hamp ->]|[Hamp ->]].
    + split_and!; [by left|done|]. intros _.
      split_and!; [done|done|lra|]. f_equal. ring.
    + split_and!; [by right|done|]. intros _.
      split_and!; [done|lra|done|]. f_equal. ring.
Qed.

Lemma signed_distance_sample_witness :
  exists s, evaluateOrbitalSDF (mkOrbitalShape "p" "pz" 1 None None)
              (mkVector3 0 2 0) = Some s /\
    evaluateOrbitalRadius (mkOrbitalShape "p" "pz" 1 None None)
      (normalize (mkVector3 0 2 0))
    = Some (vlength (mkVector3 0 2 0) - sample_distance s).
Proof.
  assert (Hlen : vlength (mkVector3 0 2 0) = 2).
  { unfold vlength. simpl.
    replace (0 * 0 + 2 * 2 + 0 * 0) with (2 * 2) by lra.
    apply sqrt_square. lra. }
  destruct (signed_distance_sample (mkOrbitalShape "p" "pz" 1 None None)
              (mkVector3 0 2 0)) as (s & Hs & _ & _ & Helsewhere).
  - unfold wellShaped. simpl. lra.
  - right. rewrite Hlen.
    assert (Hbig : 1 <= 10 ^ 100) by (apply pow_R1_Rle; lra).
    split; [|lra].
    apply Rle_trans with 1; [|lra].
    rewrite <- Rinv_1. apply Rinv_le_contravar; lra.
  - exists s. split; [exact Hs|].
    apply Helsewhere. rewrite Hlen. lra.
Defined.

Lemma scaled_unit dir r :
  isUnit dir -> 0 < r ->
  vlength (multiplyScalar dir r) = r /\ normalize (multiplyScalar dir r) = dir.
Proof.
  intros Hunit Hr.
  assert (Hlen : vlength (multiplyScalar dir r) = r).
  { unfold vlength, multiplyScalar. simpl. unfold isUnit in Hunit.
    replace (vx dir * r * (vx dir * r) + vy dir * r * (vy dir * r)
             + vz dir * r * (vz dir * r))
      with (r * r * (vx dir * vx dir + vy dir * vy dir + vz dir * vz dir)) by ring.
    rewrite Hunit, Rmult_1_r. apply sqrt_square. lra. }
  split; [done|].
  unfold normalize. rewrite Hlen.
  destruct (Req_dec_T r 0) as [H0|_]; [lra|].
  destruct dir as [x y z]. unfold multiplyScalar. simpl. f_equal; field; lra.
Qed.



(** *** The vertex loop of the mesh builder *)

(** For the s family every vertex is moved to the distance
    [baseRadius * (1 + radialScale)] in its own direction, with amplitude
    attribute 1 and phase 1, whatever the variant and the power. *)
Theorem s_family_vertex_uniform
    (variant : string) (baseRadius radialScale power : R) (tmp : Vector3) :
  displaceVertex "s" variant baseRadius radialScale power tmp
    = Some (mkVertexSample
              (multiplyScalar (normalize tmp) (baseRadius * (1 + radialScale)))
              1 1) /\
  (vlength tmp <> 0 -> 0 < baseRadius * (1 + radialScale) ->
   vlength (multiplyScalar (normalize tmp) (baseRadius * (1 + radialScale)))
     = baseRadius * (1 + radialScale)).
Proof.
  split.
  - unfold displaceVertex, evaluateOrbitalAmplitude. simpl.
    rewrite Rabs_R1. unfold Math_pow.
    destruct (Rlt_dec 0 1) as [_|Hn]; [|lra].
    rewrite Rpower_one. unfold signOrOne.
    destruct (Rlt_dec 1 0) as [Hn|_]; [lra|].
    replace (baseRadius * (1 + radialScale * 1))
      with (baseRadius * (1 + radialScale)) by ring.
    reflexivity.
  - intros Htmp Hr.
    apply scaled_unit; [by apply normalize_isUnit|done].
Qed.

Lemma s_family_vertex_uniform_witness :
  vlength (mkVector3 0 2 0) <> 0 /\
  vlength (multiplyScalar (normalize (mkVector3 0 2 0)) (1 * (1 + 1)))
    = 1 * (1 + 1).
Proof.
  assert (Hlen : vlength (mkVector3 0 2 0) <> 0).
  { unfold vlength. simpl.
    replace (0 * 0 + 2 * 2 + 0 * 0) with (2 * 2) by lra.
    rewrite sqrt_square; lra. }
  split; [exact Hlen|].
  destruct (s_family_vertex_uniform "s" 1 1 1 (mkVector3 0 2 0)) as [_ Hradius].
  apply Hradius; [exact Hlen|lra].
Defined.

(** For every family, a vertex away from the origin and a positive power,
    the vertex loop stores an amplitude attribute between 0 and 1 and a phase
    that is 1 or -1, and moves the vertex along its own direction to a
    distance between 0.22 times the base radius and the base radius times
    [1 + radialScale]. *)
Theorem vertex_attributes_in_range
    (family variant : string) (baseRadius radialScale power : R) (tmp : Vector3) :
  vlength tmp <> 0 ->
  0 < power ->
  exists v r,
    displaceVertex family variant baseRadius radialScale power tmp = Some v /\
    0 <= vertex_amp v <= 1 /\
    (vertex_phase v = 1 \/ vertex_phase v = -1) /\
    vertex_position v = multiplyScalar (normalize tmp) r /\
    (0 <= baseRadius -> 0 <= radialScale ->
     0.22 * baseRadius <= r <= baseRadius * (1 + radialScale)).
Proof.
  intros Htmp Hpower.
  pose proof (normalize_isUnit tmp Htmp) as Hunit.
  pose proof (amplitude_bounded family variant (normalize tmp) Hunit) as Hamp.
  unfold displaceVertex. cbv zeta.
  set (amp := evaluateOrbitalAmplitude family variant (normalize tmp)) in *.
  assert (Habs : 0 <= Rabs amp <= 1).
  { split; [apply Rabs_pos|apply Rabs_le; lra]. }
  destruct (Math_pow_defined (Rabs amp) power)
    as (mag & -> & Hmag0 & _ & Hmag1 & _); [lra|done|].
  destruct (Math_pow_defined (Rabs amp) 0.35)
    as (t & Ht & Ht0 & _ & Ht1 & _); [lra|lra|].
  assert (Hphase : signOrOne amp = 1 \/ signOrOne amp = -1).
  { destruct (signOrOne_cases amp) as [[_ ->]|[_ ->]]; [by left|by right]. }
  destruct (String.eqb family "s").
  - eexists _, _. split; [reflexivity|]. simpl.
    split_and!; [done|lra|done|reflexivity|].
    intros Hb Hrs.
    assert (0 <= radialScale * mag) by (apply Rmult_le_pos; lra).
    assert (radialScale * mag <= radialScale) by nra.
    nra.
  - rewrite Ht. eexists _, _. split; [reflexivity|]. simpl.
    split_and!; [done|lra|done|reflexivity|].
    intros Hb Hrs. unfold lerp.
    assert (0 <= radialScale * mag) by (apply Rmult_le_pos; lra).
    assert (radialScale * mag <= radialScale) by nra.
    assert (0.22 <= (1 - t) * 0.22 + t * 1 <= 1) by lra.
    nra.
Qed.

Lemma vertex_attributes_in_range_witness :
  exists v,
    displaceVertex "p" "pz" 1 1 2 (mkVector3 0 2 0) = Some v /\
    0 <= vertex_amp v <= 1.
Proof.
  destruct (vertex_attributes_in_range "p" "pz" 1 1 2 (mkVector3 0 2 0))
    as (v & r & Hv & Hamp & _).
  - unfold vlength. simpl.
    replace (0 * 0 + 2 * 2 + 0 * 0) with (2 * 2) by lra.
    rewrite sqrt_square; lra.
  - lra.
  - exists v. split; [exact Hv|exact Hamp].
Defined.

End OrbitalsExtras.

(** ** Properties of the layout rules *)

Module AtomSpdfProofs.

Import ElectronConfig ElectronConfigProofs Orbitals AtomSpdf.
Open Scope R_scope.

(** *** Records of built configurations *)

(** Every record of a built configuration is a slot of the filling order
    holding between one electron and its capacity. *)
Definition tableRecord (c : Entry) : Prop :=
  mkOrbital (entry_n c) (entry_l c) (entry_capacity c) ∈ ORBITAL_ORDER /\
  (0 < entry_electrons c <= entry_capacity c)%Z.

#[global] Instance tableRecord_dec c : Decision (tableRecord c).
Proof. unfold tableRecord. apply _. Defined.

Lemma build_table_records a : Forall tableRecord (buildElectronConfiguration a).
Proof.
  destruct (decide (a <= 0)%Z) as [Hneg|Hpos].
  - unfold buildElectronConfiguration, applyExceptions.
    rewrite no_exception_outside by lia. by rewrite fill_nothing.
  - destruct (decide (a <= 118)%Z) as [Hle|Hgt].
    + revert a Hpos Hle.
      assert (H : forall a, (1 <= a <= 118)%Z ->
                Forall tableRecord (buildElectronConfiguration a)).
      { apply (periodic_table_range (fun a =>
          Forall tableRecord (buildElectronConfiguration a))).
        compute_done. }
      intros a ? ?. apply H. lia.
    + rewrite build_table_exhausted; [|lia|apply no_exception_outside; lia].
      compute_done.
Qed.

(** *** One orbital mesh per pair of electrons *)

(** Each slot of the filling order has one variant per pair of electrons of
    its capacity.  For every record of a built configuration
    [createSubshellGroup] returns a group, named after the subshell, with
    one orbital per variant of the family of the record, that is half its
    capacity, each of them a pair of the closed set. *)
Theorem one_orbital_per_electron_pair
    (atomicNumber : Z) (coatOpacity : R) (c : Entry) :
  Forall (fun o => (2 * Z.of_nat (length (getVariants (orbital_l o)))
                    = orbital_capacity o)%Z) ORBITAL_ORDER /\
  (c ∈ buildElectronConfiguration atomicNumber ->
   exists g, createSubshellGroup c coatOpacity = Some g /\
     group_name g = subshellKey (entry_n c) (entry_l c) /\
     (2 * Z.of_nat (length (group_orbitals g)) = entry_capacity c)%Z /\
     ((fun cfg => (family cfg, variant cfg)) <$> group_orbitals g)
       = ((fun v => (entry_l c, v)) <$> getVariants (entry_l c)) /\
     Forall (fun cfg => (family cfg, variant cfg) ∈ enumerated) (group_orbitals g)).
Proof.
  split; [compute_done|].
  intros Hc. pose proof (build_table_records atomicNumber) as Hall.
  rewrite Forall_forall in Hall. destruct (Hall c Hc) as [Hslot _].
  destruct c as [n l cap e]. simpl in Hslot. unfold ORBITAL_ORDER in Hslot.
  repeat (apply elem_of_cons in Hslot as [[= -> -> ->]|Hslot];
    [ eexists; split; [reflexivity|];
      split_and!; [reflexivity|reflexivity|reflexivity|];
      repeat constructor; apply (bool_decide_unpack _); vm_compute; exact I |]).
  by apply elem_of_nil in Hslot.
Qed.

Lemma one_orbital_per_electron_pair_witness :
  exists g, createSubshellGroup (mkEntry 1 "s" 2 1) 1 = Some g /\
            (2 * Z.of_nat (length (group_orbitals g)) = 2)%Z.
Proof.
  destruct (one_orbital_per_electron_pair 1 1 (mkEntry 1 "s" 2 1))
    as [_ Hgroup].
  destruct Hgroup as (g & Hg & _ & Hlen & _).
  - vm_compute. apply list_elem_of_here.
  - exists g. split; [exact Hg|exact Hlen].
Defined.

(** *** Opacity *)

Lemma computeOpacity_range baseOpacity occupancy :
  0 <= baseOpacity -> 0 <= occupancy <= 1 ->
  computeOpacity baseOpacity occupancy = baseOpacity * (0.55 + 0.45 * occupancy) /\
  0.55 * baseOpacity <= computeOpacity baseOpacity occupancy <= baseOpacity.
Proof.
  intros Hb Ho. unfold computeOpacity. cbv zeta.
  rewrite Rmin_right by lra. rewrite Rmax_right by lra.
  split; [done|]. nra.
Qed.

(** For every record of a built configuration the occupancy stored by
    [createSubshellGroup] is the fraction of the capacity that is filled,
    above 0 and at most 1, and the opacity lies between 0.55 times the coat
    opacity and the coat opacity, which it reaches when the record is full. *)
Theorem opacity_follows_occupancy
    (atomicNumber : Z) (coatOpacity : R) (c : Entry) (g : SubshellGroup) :
  c ∈ buildElectronConfiguration atomicNumber ->
  0 <= coatOpacity ->
  createSubshellGroup c coatOpacity = Some g ->
  group_occupancy g = IZR (entry_electrons c) / IZR (entry_capacity c) /\
  0 < group_occupancy g <= 1 /\
  0.55 * coatOpacity <= group_opacity g <= coatOpacity /\
  (entry_electrons c = entry_capacity c -> group_opacity g = coatOpacity).
Proof.
  intros Hc Hcoat Hg.
  pose proof (build_table_records atomicNumber) as Hall.
  rewrite Forall_forall in Hall. destruct (Hall c Hc) as [_ [Hpos Hle]].
  unfold createSubshellGroup in Hg. cbv zeta in Hg.
  destruct (getVariants (entry_l c)) as [|v vs]; [done|].
  assert (Hcap : (entry_capacity c =? 0)%Z = false) by (apply Z.eqb_neq; lia).
  rewrite Hcap in Hg. injection Hg as <-. simpl.
  assert (He : 0 < IZR (entry_electrons c)) by (by apply (IZR_lt 0)).
  assert (Hec : IZR (entry_electrons c) <= IZR (entry_capacity c)) by (by apply IZR_le).
  assert (Hocc : 0 < IZR (entry_electrons c) / IZR (entry_capacity c) <= 1).
  { split.
    - apply Rdiv_lt_0_compat; lra.
    - assert (Hq : IZR (entry_electrons c) / IZR (entry_capacity c)
                     * IZR (entry_capacity c) = IZR (entry_electrons c))
        by (field; lra).
      nra. }
  destruct (computeOpacity_range coatOpacity
              (IZR (entry_electrons c) / IZR (entry_capacity c)))
    as [Heq Hrange]; [done|lra|].
  split_and!; [done|lra|lra|lra|lra|].
  intros Hfull. rewrite Heq, Hfull.
  replace (IZR (entry_capacity c) / IZR (entry_capacity c)) with 1 by (field; lra).
  lra.
Qed.

Lemma opacity_follows_occupancy_witness :
  0.55 * 1 <= computeOpacity 1 (IZR 1 / IZR 2) <= 1.
Proof.
  destruct (opacity_follows_occupancy 1 1 (mkEntry 1 "s" 2 1)
              (mkSubshellGroup (subshellKey 1 "s") (IZR 1 / IZR 2)
                 (computeOpacity 1 (IZR 1 / IZR 2))
                 [mkOrbitalConfig "s" "s" (getBaseRadius 1 "s") 1.05 1.35]))
    as (_ & _ & Hrange & _).
  - vm_compute. apply list_elem_of_here.
  - lra.
  - reflexivity.
  - exact Hrange.
Defined.

(** *** The nucleus *)

Lemma cbrt_bounds x :
  1 <= x <= 314 -> 1 <= Math_cbrt x <= 6.8.
Proof.
  intros Hx. unfold Math_cbrt. destruct (Rlt_dec 0 x) as [_|Hn]; [|lra].
  split.
  - assert (H1 : Rpower 1 (1 / 3) <= Rpower x (1 / 3)) by (apply Rle_Rpower_l; lra).
    by rewrite OrbitalsExtras.Rpower_one in H1.
  - assert (Hcube : Rpower (6.8 ^ 3) (1 / 3) = 6.8).
    { rewrite <- (Rpower_pow 3) by lra. rewrite Rpower_mult.
      replace (INR 3 * (1 / 3)) with 1 by (simpl; lra).
      apply Rpower_1. lra. }
    assert (H2 : Rpower x (1 / 3) <= Rpower (6.8 ^ 3) (1 / 3)).
    { apply Rle_Rpower_l; [lra|]. split; [lra|]. simpl. lra. }
    by rewrite Hcube in H2.
Qed.

Lemma cbrt_increasing x y : 0 < x < y -> Math_cbrt x < Math_cbrt y.
Proof.
  intros Hxy. unfold Math_cbrt.
  destruct (Rlt_dec 0 x) as [_|Hn]; [|lra].
  destruct (Rlt_dec 0 y) as [_|Hn]; [|lra].
  apply Rlt_Rpower_l; lra.
Qed.

(** The nucleus radius is the override when there is one and 0.28 for the
    atomic number 0; otherwise it lies between 0.18 and 0.52.  For the atomic
    numbers 1 to 314 the clamp does not act, the radius is
    [0.18 + 0.05 * cbrt(atomicNumber)], and it grows strictly with the atomic
    number. *)
Theorem nucleus_radius_range (atomicNumber other : Z) (override : option R) :
  (forall r, override = Some r -> computeNucleusRadius atomicNumber override = r) /\
  computeNucleusRadius 0 None = 0.28 /\
  (atomicNumber <> 0%Z ->
   0.18 <= computeNucleusRadius atomicNumber None <= 0.52) /\
  ((1 <= atomicNumber <= 314)%Z ->
   computeNucleusRadius atomicNumber None
     = 0.18 + 0.05 * Math_cbrt (IZR atomicNumber)) /\
  ((1 <= atomicNumber < other)%Z -> (other <= 314)%Z ->
   computeNucleusRadius atomicNumber None < computeNucleusRadius other None).
Proof.
  assert (Hexact : forall a, (1 <= a <= 314)%Z ->
            computeNucleusRadius a None = 0.18 + 0.05 * Math_cbrt (IZR a)).
  { intros a Ha. unfold computeNucleusRadius.
    assert ((a =? 0)%Z = false) as -> by (apply Z.eqb_neq; lia).
    assert (Hr : 1 <= IZR a <= 314).
    { split; [apply (IZR_le 1); lia|apply (IZR_le _ 314); lia]. }
    pose proof (cbrt_bounds _ Hr) as Hc.
    unfold clamp. rewrite Rmin_right by lra. rewrite Rmax_right by lra. done. }
  split_and!.
  - by intros r ->.
  - reflexivity.
  - intros Hne. unfold computeNucleusRadius.
    assert ((atomicNumber =? 0)%Z = false) as -> by (by apply Z.eqb_neq).
    unfold clamp.
    set (scaled := 0.18 + 0.05 * Math_cbrt (IZR atomicNumber)).
    split.
    + apply Rmax_l.
    + apply Rmax_lub; [lra|apply Rmin_l].
  - apply Hexact.
  - intros Hlt Hle. rewrite !Hexact by lia.
    assert (Math_cbrt (IZR atomicNumber) < Math_cbrt (IZR other)).
    { apply cbrt_increasing. split; [apply (IZR_lt 0); lia|apply IZR_lt; lia]. }
    lra.
Qed.

Lemma nucleus_radius_range_witness :
  computeNucleusRadius 1 None < computeNucleusRadius 118 None.
Proof.
  destruct (nucleus_radius_range 1 118 None) as (_ & _ & _ & _ & Hgrow).
  apply Hgrow; lia.
Defined.

(** *** Shell radii *)

Definition shellBase (n : Z) : R :=
  default (0.55 + 0.5 * Rmax 0 (IZR n - 1)) (SHELL_BASE_RADIUS n).

Lemma shellBase_step n : (1 <= n)%Z -> shellBase n < shellBase (n + 1).
Proof.
  intros Hn. unfold shellBase.
  destruct (decide (n <= 7)%Z) as [Hsmall|Hlarge].
  - assert (Hcases : n = 1%Z \/ n = 2%Z \/ n = 3%Z \/ n = 4%Z \/ n = 5%Z
                     \/ n = 6%Z \/ n = 7%Z) by lia.
    destruct Hcases as [->|[->|[->|[->|[->|[->| ->]]]]]]; simpl; try lra.
    change (7 + 1)%Z with 8%Z. rewrite Rmax_right by lra. lra.
  - assert (Hn8 : (8 <= n)%Z) by lia.
    assert (Hr : 8 <= IZR n) by (by apply (IZR_le 8)).
    assert (Hnone : forall m, (8 <= m)%Z -> SHELL_BASE_RADIUS m = None).
    { intros m Hm. unfold SHELL_BASE_RADIUS.
      repeat match goal with
             | |- context [(m =? ?k)%Z] =>
                 replace (m =? k)%Z with false by (symmetry; apply Z.eqb_neq; lia)
             end.
      done. }
    rewrite !Hnone by lia. simpl. rewrite plus_IZR.
    rewrite !Rmax_right by lra. lra.
Qed.

Lemma shellBase_increasing n m : (1 <= n < m)%Z -> shellBase n < shellBase m.
Proof.
  intros [Hn Hlt].
  assert (Hgen : forall k : nat, shellBase n < shellBase (n + 1 + Z.of_nat k)).
  { induction k as [|k IH].
    - replace (n + 1 + Z.of_nat 0)%Z with (n + 1)%Z by lia. by apply shellBase_step.
    - eapply Rlt_trans; [exact IH|].
      replace (n + 1 + Z.of_nat (S k))%Z with (n + 1 + Z.of_nat k + 1)%Z by lia.
      apply shellBase_step. lia. }
  specialize (Hgen (Z.to_nat (m - n - 1))).
  by replace (n + 1 + Z.of_nat (Z.to_nat (m - n - 1)))%Z with m in Hgen by lia.
Qed.

(** Shells nest: within each of the families s, p, d and f the base radius
    grows strictly with the shell number from shell 1 on, across the end of
    the table of shell radii as well, for shell numbers up to a million. *)
Theorem base_radius_grows_with_shell (n m : Z) (family : string) :
  family ∈ ["s"; "p"; "d"; "f"]%string ->
  (1 <= n < m)%Z -> (m <= 1000000)%Z ->
  getBaseRadius n family < getBaseRadius m family.
Proof.
  intros _ Hnm _. pose proof (shellBase_increasing n m Hnm) as Hbase.
  unfold getBaseRadius. cbv zeta. fold (shellBase n). fold (shellBase m).
  assert (Hscale : 0 < default 1.0 (familyLookup FAMILY_BASE_SCALE family)).
  { unfold familyLookup, FAMILY_BASE_SCALE.
    destruct (list_find _ _) as [[i [k v]]|] eqn:E; simpl; [|lra].
    apply list_find_Some in E as (Hi & _ & _).
    apply list_elem_of_lookup_2 in Hi.
    repeat (apply elem_of_cons in Hi as [[= _ ->]|Hi]; [lra|]).
    by apply elem_of_nil in Hi. }
  apply Rmult_lt_compat_r; [done|lra].
Qed.

Lemma base_radius_grows_with_shell_witness :
  getBaseRadius 7 "f" < getBaseRadius 8 "f".
Proof.
  apply (base_radius_grows_with_shell 7 8 "f").
  - apply (bool_decide_unpack _). vm_compute. exact I.
  - lia.
  - lia.
Defined.

End AtomSpdfProofs.
